(** * Anchoring, annotation and retrieval core of the ADGM review agent

    A shallow embedding of [app/agents/docx_annotator.py],
    [app/agents/compliance_checker.py] and [app/services/retriever.py].

    Strings are Stdlib [string]s (lists of ASCII characters); Python's
    [str.lower] is modelled on ASCII letters, and [x in s] on strings is the
    substring test [contains].  A paragraph is modelled by its text
    ([p.text or ""]).  Effects (embedding calls, the language model, the file
    system, FAISS) are parameters of Sections or explicit inputs. *)

From Stdlib Require Import List String Ascii Bool Arith ZArith QArith Lia Lqa
  Permutation Sorting.Permutation Sorting.Sorted.
Import ListNotations.
Open Scope nat_scope.
Open Scope string_scope.

(** ** Python string helpers *)

(** [str.lower] on one ASCII character. *)
Definition lower_char (c : ascii) : ascii :=
  let n := nat_of_ascii c in
  if ((65 <=? n) && (n <=? 90))%nat then ascii_of_nat (n + 32)%nat else c.

(** [s.lower()] *)
Fixpoint lower (s : string) : string :=
  match s with
  | EmptyString => EmptyString
  | String c s' => String (lower_char c) (lower s')
  end.

(** [needle in hay] for Python strings. *)
Fixpoint contains (needle hay : string) : bool :=
  if prefix needle hay then true
  else match hay with
       | EmptyString => false
       | String _ hay' => contains needle hay'
       end.

(** [s[:n]] *)
Definition take (n : nat) (s : string) : string := substring 0 n s.

(** Python truthiness of a string. *)
Definition nonempty (s : string) : bool :=
  match s with EmptyString => false | _ => true end.

(** ** Data model ([app/models/schemas.py]) *)

Record IssueEvidence := mkEvidence {
  ref_id : string;
  snippet : string;
  source_url : option string
}.

(** [groundedness] is a float: modelled by its exact rational value. *)
Record IssueItem := mkIssue {
  document : string;
  section : string;
  issue : string;
  severity : string;
  evidence : list IssueEvidence;
  suggestion : option string;
  source_filename : option string;
  category : option string;
  groundedness : option Q;
  suggestion_long : option string
}.

(** ** Substring strategy *)

(** The scan of [_find_paragraph_index]: the first paragraph (from index
    [idx]) in which some lowered candidate's first 30 characters occur. *)
Fixpoint find_from (lowered : list string) (idx : nat) (paras : list string)
  : option nat :=
  match paras with
  | [] => None
  | p :: ps =>
      let txt := lower p in
      if existsb (fun c => nonempty c && contains (take 30 c) txt) lowered
      then Some idx
      else find_from lowered (S idx) ps
  end.

(** [_find_paragraph_index(doc, candidates)] *)
Definition _find_paragraph_index (paras : list string) (candidates : list string)
  : option nat :=
  let lowered_candidates := map lower (filter nonempty candidates) in
  match lowered_candidates with
  | [] => None
  | _ => find_from lowered_candidates 0 paras
  end.

(** The candidate list built in the loop of [annotate_docx]. *)
Definition anchor_candidates (it : IssueItem) : list string :=
  ((match evidence it with
    | e :: _ => if nonempty (snippet e) then [snippet e] else []
    | [] => []
    end)
   ++ (if nonempty (issue it) then [issue it] else [])
   ++ (if nonempty (section it) then [section it] else []))%list.

Definition substring_anchor (paras : list string) (it : IssueItem) : option nat :=
  _find_paragraph_index paras (anchor_candidates it).

(** ** Keyword strategy *)

Definition jurisdiction_keywords : list string :=
  ["jurisdiction"; "court"; "uae"; "abu dhabi"; "adgm"].

Definition address_keywords : list string := ["address"; "registered office"].

(** The keyword list of [_keyword_anchor], including the reset for the
    absence issues (missing signature, missing ADGM presence). *)
Definition anchor_keywords (issue_text : string) : list string :=
  let text := lower issue_text in
  let keywords :=
    ((if contains "jurisdiction" text || contains "court" text
      then jurisdiction_keywords else [])
     ++ (if contains "address" text then address_keywords else []))%list in
  if contains "signature" text || (contains "adgm" text && contains "not" text)
  then [] else keywords.

(** [sum(1 for k in keywords if k in pt)] *)
Definition keyword_hits (keywords : list string) (p : string) : nat :=
  let pt := lower p in
  List.length (filter (fun k => contains k pt) keywords).

(** The scan of [_keyword_anchor], returning [(best_idx, best_hits)]. *)
Fixpoint keyword_scan (keywords : list string) (idx : nat)
    (best_idx : option nat) (best_hits : nat) (paras : list string)
  : option nat * nat :=
  match paras with
  | [] => (best_idx, best_hits)
  | p :: ps =>
      let hits := keyword_hits keywords p in
      if Nat.ltb best_hits hits
      then keyword_scan keywords (S idx) (Some idx) hits ps
      else keyword_scan keywords (S idx) best_idx best_hits ps
  end.

(** [_keyword_anchor(doc, issue)] *)
Definition _keyword_anchor (paras : list string) (it : IssueItem) : option nat :=
  match anchor_keywords (issue it) with
  | [] => None
  | keywords =>
      let (best_idx, best_hits) := keyword_scan keywords 0 None 0 paras in
      if Nat.ltb 0 best_hits then best_idx else None
  end.

(** ** Semantic strategy *)

(** The exact value of the double literal [0.2] (the nearest double,
    3602879701896397 / 2^54).  Comparisons of finite doubles are exact, so
    scores are modelled by the exact rational values of the doubles
    [float((par_emb[i] * q_emb).sum())]. *)
Definition semantic_threshold : Q := 3602879701896397 # 18014398509481984.

(** The scan of [_semantic_anchor], from [best_idx = None] and
    [best_score = -1.0]; [score > best_score] is [~ score <= best_score]. *)
Fixpoint semantic_scan (idx : nat) (best_idx : option nat) (best_score : Q)
    (scores : list Q) : option nat * Q :=
  match scores with
  | [] => (best_idx, best_score)
  | s :: ss =>
      if negb (Qle_bool s best_score)
      then semantic_scan (S idx) (Some idx) s ss
      else semantic_scan (S idx) best_idx best_score ss
  end.

Section Semantic.

(** The embedding service seen through the scores it yields: for the
    paragraph texts and the query, the per-paragraph dot products, or [None]
    when [embed_texts] raises (the strategy catches every exception). *)
Variable embed_scores : list string -> string -> option (list Q).

(** [_semantic_anchor(doc, issue)] *)
Definition _semantic_anchor (paras : list string) (it : IssueItem) : option nat :=
  let query := issue it in
  if negb (nonempty query) then None else
  match paras with
  | [] => None
  | _ =>
      match embed_scores paras query with
      | None => None
      | Some scores =>
          let (best_idx, best_score) := semantic_scan 0 None (-1) scores in
          match best_idx with
          | Some i => if Qle_bool semantic_threshold best_score then Some i else None
          | None => None
          end
      end
  end.

(** The per-issue cascade in the first loop of [annotate_docx]. *)
Definition resolve_anchor (paras : list string) (it : IssueItem) : option nat :=
  match substring_anchor paras it with
  | Some i => Some i
  | None =>
      match _keyword_anchor paras it with
      | Some i => Some i
      | None => _semantic_anchor paras it
      end
  end.

End Semantic.

(** ** Grouping of issues per paragraph *)

(** A [Dict[int, List[IssueItem]]] as an association list in insertion order. *)
Definition Groups := list (nat * list IssueItem).

(** [paragraph_to_issues.setdefault(k, []).append(it)] *)
Fixpoint setdefault_append (k : nat) (it : IssueItem) (m : Groups) : Groups :=
  match m with
  | [] => [(k, [it])]
  | (k', l) :: m' =>
      if Nat.eqb k k' then (k', (l ++ [it])%list) :: m'
      else (k', l) :: setdefault_append k it m'
  end.

(** One iteration of the first loop of [annotate_docx]. *)
Definition place_issue (resolve : IssueItem -> option nat)
    (st : Groups * list IssueItem) (it : IssueItem) : Groups * list IssueItem :=
  let (paragraph_to_issues, unanchored) := st in
  match resolve it with
  | Some p_idx => (setdefault_append p_idx it paragraph_to_issues, unanchored)
  | None => (paragraph_to_issues, (unanchored ++ [it])%list)
  end.

Definition group_issues (resolve : IssueItem -> option nat) (issues : list IssueItem)
  : Groups * list IssueItem :=
  fold_left (place_issue resolve) issues ([], []).

(** ** Errors and the effect monad of the annotator *)

(** The Python exceptions that can escape the modelled functions. *)
Inductive Exn :=
| IndexError
| TypeError
| ValueError
| KeyError
| PermissionError
| FileNotFoundError
| OtherOSError
| EmbeddingError
| IndexUnavailable.  (** [RuntimeError("FAISS index not found. ...")] *)

Definition Result (A : Type) : Type := (Exn + A)%type.

(** Computations that write files: the list of paths passed to [doc.save]
    so far is threaded through, next to the error or the value. *)
Definition M (A : Type) : Type := list string -> list string * Result A.

Definition ret {A} (a : A) : M A := fun log => (log, inr a).
Definition raise {A} (e : Exn) : M A := fun log => (log, inl e).
Definition bind {A B} (m : M A) (k : A -> M B) : M B :=
  fun log => match m log with
             | (log', inl e) => (log', inl e)
             | (log', inr a) => k a log'
             end.
Definition lift {A} (r : Result A) : M A := fun log => (log, r).

Notation "x <- m ;; k" := (bind m (fun x => k))
  (at level 61, m at next level, right associativity).

(** ** Python helpers: numbers, whitespace, lists *)

Fixpoint digits_rev (fuel n : nat) : list ascii :=
  match fuel with
  | O => []
  | S f => ascii_of_nat (48 + n mod 10)%nat
           :: (if Nat.ltb n 10 then [] else digits_rev f (n / 10))
  end.

(** [str(n)] for a natural number. *)
Definition string_of_nat (n : nat) : string :=
  string_of_list_ascii (rev (digits_rev (S n) n)).

(** [str(z)] for an integer. *)
Definition string_of_Z (z : Z) : string :=
  if (z <? 0)%Z then "-" ++ string_of_nat (Z.to_nat (- z))
  else string_of_nat (Z.to_nat z).

(** [c.isspace()] on ASCII characters. *)
Definition is_py_space (c : ascii) : bool :=
  let n := nat_of_ascii c in
  ((Nat.leb 9 n && Nat.leb n 13) || (Nat.leb 28 n && Nat.leb n 32)).

Fixpoint lstrip (s : string) : string :=
  match s with
  | EmptyString => EmptyString
  | String c s' => if is_py_space c then lstrip s' else s
  end.

Definition string_rev (s : string) : string :=
  string_of_list_ascii (rev (list_ascii_of_string s)).

(** [s.strip()] *)
Definition strip (s : string) : string :=
  string_rev (lstrip (string_rev (lstrip s))).

(** [sep.join(parts)] *)
Definition join_with (sep : string) (parts : list string) : string :=
  String.concat sep parts.

(** [seq[i]] of a Python list of length [n]: negative indices count from the
    end; anything else out of range raises [IndexError]. *)
Definition py_index (n : nat) (i : Z) : Result nat :=
  if ((0 <=? i) && (i <? Z.of_nat n))%Z then inr (Z.to_nat i)
  else if ((- Z.of_nat n <=? i) && (i <? 0))%Z then inr (Z.to_nat (Z.of_nat n + i))
  else inl IndexError.

Fixpoint update_nth {A} (f : A -> A) (i : nat) (l : list A) : list A :=
  match l, i with
  | [], _ => []
  | x :: l', O => f x :: l'
  | x :: l', S i' => x :: update_nth f i' l'
  end.

(** ** Equality of [IssueItem]s (pydantic's field-wise [==]) *)

Definition option_eqb {A} (eqb : A -> A -> bool) (x y : option A) : bool :=
  match x, y with
  | None, None => true
  | Some a, Some b => eqb a b
  | _, _ => false
  end.

Definition evidence_eqb (e f : IssueEvidence) : bool :=
  String.eqb (ref_id e) (ref_id f) && String.eqb (snippet e) (snippet f)
  && option_eqb String.eqb (source_url e) (source_url f).

Fixpoint list_eqb {A} (eqb : A -> A -> bool) (l m : list A) : bool :=
  match l, m with
  | [], [] => true
  | x :: l', y :: m' => eqb x y && list_eqb eqb l' m'
  | _, _ => false
  end.

Definition issue_eqb (a b : IssueItem) : bool :=
  String.eqb (document a) (document b) && String.eqb (section a) (section b)
  && String.eqb (issue a) (issue b) && String.eqb (severity a) (severity b)
  && list_eqb evidence_eqb (evidence a) (evidence b)
  && option_eqb String.eqb (suggestion a) (suggestion b)
  && option_eqb String.eqb (source_filename a) (source_filename b)
  && option_eqb String.eqb (category a) (category b)
  && option_eqb Qeq_bool (groundedness a) (groundedness b)
  && option_eqb String.eqb (suggestion_long a) (suggestion_long b).

(** [issues.index(x)]: the first position of an equal element, else
    [ValueError]. *)
Fixpoint list_index (x : IssueItem) (l : list IssueItem) : Result nat :=
  match l with
  | [] => inl ValueError
  | y :: l' =>
      if issue_eqb y x then inr 0
      else match list_index x l' with inl e => inl e | inr n => inr (S n) end
  end.

(** ** Document model *)

(** The [w:id] attribute of a [w:comment] element of the comments part:
    absent, not an integer literal ([int(cid)] raises), or an integer. *)
Inductive CommentId :=
| IdMissing
| IdMalformed
| IdValue (z : Z).

(** An original paragraph: its text, the ids of the comment range markers
    (start, end and reference, all carrying the same id) wrapped around it,
    the inline notes appended as runs, and whether its runs are highlighted. *)
Record Paragraph := mkPara {
  ptext : string;
  range_ids : list Z;
  inline_notes : list string;
  highlighted : bool
}.

(** Blocks appended after the original paragraphs.  [BEntry n it] is the
    numbered appendix paragraph [f"{n}. [{severity}] "] [f"{issue} "]
    [(Per {cite})] of issue [it]. *)
Inductive Block :=
| BParagraph (text : string)
| BHeading (level : nat) (text : string)
| BPageBreak
| BEntry (n : nat) (it : IssueItem).

(** [comments] is [None] when [_get_comments_part] yields no comments
    element. *)
Record Document := mkDoc {
  paragraphs : list Paragraph;
  appended : list Block;
  comments : option (list CommentId)
}.

Definition para_texts (d : Document) : list string := map ptext (paragraphs d).

(** ** [_add_word_comment] *)

(** The loop [next_id = max(next_id, int(cid))] over the existing comments;
    [None] when [int(cid)] raises. *)
Fixpoint max_comment_id (next_id : Z) (existing : list CommentId) : option Z :=
  match existing with
  | [] => Some next_id
  | IdMissing :: l => max_comment_id next_id l
  | IdMalformed :: _ => None
  | IdValue cid :: l => max_comment_id (Z.max next_id cid) l
  end.

(** [comments.xpath(".//w:comment", namespaces=comments.nsmap)].  The
    comments element is python-docx's [CT_Comments], a [BaseOxmlElement],
    whose [xpath(self, xpath_str)] accepts no [namespaces] keyword: the call
    raises [TypeError] before any comment is read, whatever the store holds. *)
Definition comments_xpath_ns (existing : list CommentId) : Result (list CommentId) :=
  inl TypeError.

(** The id allocation of [_add_word_comment]: the [try] block (the lookup of
    the existing comments, then [max(0, ids) + 1]) and its [except] branch
    ([next_id = 0]). *)
Definition next_comment_id (existing : list CommentId) : Z :=
  match comments_xpath_ns existing with
  | inl _ => 0%Z
  | inr found =>
      match max_comment_id 0 found with
      | Some m => (m + 1)%Z
      | None => 0%Z
      end
  end.

(** [_add_word_comment(doc.paragraphs[i], comment_text)]: appends a
    [w:comment] with the new id to the comments part and wraps paragraph [i]
    with range markers carrying that id. *)
Definition _add_word_comment (d : Document) (i : nat) (comment_text : string)
  : Document * bool :=
  match comments d with
  | None => (d, false)
  | Some existing =>
      let next_id := next_comment_id existing in
      (mkDoc (update_nth (fun p => mkPara (ptext p) (range_ids p ++ [next_id])%list
                                          (inline_notes p) (highlighted p))
                         i (paragraphs d))
             (appended d)
             (Some (existing ++ [IdValue next_id])%list), true)
  end.

(** [_add_inline_comment(doc.paragraphs[i], note_text)] *)
Definition _add_inline_comment (d : Document) (i : nat) (note_text : string)
  : Document :=
  mkDoc (update_nth (fun p => mkPara (ptext p) (range_ids p)
                                     (inline_notes p ++ [note_text])%list true)
                    i (paragraphs d))
        (appended d) (comments d).

(** ** [_llm_anchor_map] *)

(** An element of the JSON list returned by the language model: a dict with
    its ["issue_idx"] and ["paragraph_idx"] values when they are [int]s, or
    something without a [.get] method. *)
Inductive LlmItem :=
| LDict (issue_idx : option Z) (paragraph_idx : option Z)
| LOther.

(** [result[k] = v] on a [Dict[int, int]] kept in insertion order. *)
Fixpoint dict_set (k v : Z) (m : list (Z * Z)) : list (Z * Z) :=
  match m with
  | [] => [(k, v)]
  | (k', v') :: m' => if Z.eqb k k' then (k', v) :: m' else (k', v') :: dict_set k v m'
  end.

(** [d.get(k, default)] *)
Fixpoint dict_get (k : Z) (m : list (Z * Z)) (default : Z) : Z :=
  match m with
  | [] => default
  | (k', v) :: m' => if Z.eqb k k' then v else dict_get k m' default
  end.

(** The loop over [data]; [None] when an item has no [.get] (the
    [AttributeError] is caught by the surrounding [except]). *)
Fixpoint parse_anchor_items (result : list (Z * Z)) (data : list LlmItem)
  : option (list (Z * Z)) :=
  match data with
  | [] => Some result
  | LOther :: _ => None
  | LDict (Some ii) (Some pi) :: data' => parse_anchor_items (dict_set ii pi result) data'
  | LDict _ _ :: data' => parse_anchor_items result data'
  end.

(** The paragraph digest sent in the prompt: index and first 180 characters
    of the stripped text of each non-blank paragraph, at most 60 of them. *)
Fixpoint llm_digest (i : nat) (paras : list (nat * string)) (ps : list string)
  : list (nat * string) :=
  match ps with
  | [] => paras
  | p :: ps' =>
      let txt := strip p in
      let paras := if nonempty txt then (paras ++ [(i, take 180 txt)])%list else paras in
      if Nat.leb 60 (List.length paras) then paras else llm_digest (S i) paras ps'
  end.

(** The language model as seen by the annotator: [None] when
    [get_llm_client()] is [None]; [Some None] when [generate_json_list]
    raises; [Some (Some data)] for the list it returns. *)
Definition LlmOracle := option (option (list LlmItem)).

(** [_llm_anchor_map(doc, issues)] *)
Definition _llm_anchor_map (llm : LlmOracle) (paras : list string)
    (issues : list IssueItem) : list (Z * Z) :=
  match llm, issues with
  | None, _ | _, [] => []
  | Some response, _ =>
      match llm_digest 0 [] paras with
      | [] => []
      | _ =>
          match response with
          | None => []
          | Some data =>
              match parse_anchor_items [] data with
              | Some result => result
              | None => []
              end
          end
      end
  end.

(** ** Paths ([os.path]) *)

(** [os.path.basename(p)]: the part after the last ["/"]. *)
Fixpoint basename_acc (acc : string) (p : string) : string :=
  match p with
  | EmptyString => acc
  | String c p' =>
      if Ascii.eqb c "/" then basename_acc EmptyString p'
      else basename_acc (acc ++ String c EmptyString) p'
  end.

Definition basename (p : string) : string := basename_acc EmptyString p.

(** The index of the last ["."] of a string. *)
Fixpoint rfind_dot (i : nat) (found : option nat) (p : string) : option nat :=
  match p with
  | EmptyString => found
  | String c p' => rfind_dot (S i) (if Ascii.eqb c "." then Some i else found) p'
  end.

(** [os.path.splitext(p)] for a path without ["/"]: split at the last
    ["."] unless only dots precede it. *)
Definition splitext (p : string) : string * string :=
  match rfind_dot 0 None p with
  | None => (p, EmptyString)
  | Some dot =>
      let root := substring 0 dot p in
      if existsb (fun c => negb (Ascii.eqb c ".")) (list_ascii_of_string root)
      then (root, substring dot (String.length p - dot) p)
      else (p, EmptyString)
  end.

(** [os.path.join(a, b)] for a relative [b]. *)
Definition path_join (a b : string) : string :=
  match a with
  | EmptyString => b
  | _ =>
      match get (String.length a - 1) a with
      | Some "/"%char => a ++ b
      | _ => a ++ "/" ++ b
      end
  end.

(** ** The environment of one annotation run *)

Record Env := mkEnv {
  output_dir : string;                      (** [settings.output_dir] *)
  save_outcome : string -> option Exn;      (** [doc.save(path)]: [None] on success *)
  now_stamp : string;                       (** [datetime.now().strftime("%Y%m%d-%H%M%S")] *)
  uuid_hex : string;                        (** [uuid4().hex] *)
  embed_scores : list string -> string -> option (list Q);
  llm : LlmOracle
}.

(** [doc.save(path)]: the attempt is recorded whatever its outcome. *)
Definition save (env : Env) (path : string) : M unit :=
  fun log => ((log ++ [path])%list,
              match save_outcome env path with None => inr tt | Some e => inl e end).

(** The persistence step at the end of [annotate_docx]. *)
Definition write_output (env : Env) (original_path : string) : M string :=
  let '(name, ext) := splitext (basename original_path) in
  let out_path := path_join (output_dir env) (name ++ "_reviewed" ++ ext) in
  fun log =>
    match save env out_path log with
    | (log1, inr _) => (log1, inr out_path)
    | (log1, inl PermissionError) =>
        let unique_suffix := now_stamp env ++ "-" ++ take 6 (uuid_hex env) in
        let out_path2 :=
          path_join (output_dir env) (name ++ "_reviewed_" ++ unique_suffix ++ ext) in
        match save env out_path2 log1 with
        | (log2, inr _) => (log2, inr out_path2)
        | (log2, inl e) => (log2, inl e)
        end
    | (log1, inl e) => (log1, inl e)
    end.

(** ** The annotation pass *)

(** [sorted(paragraph_to_issues.items())]: the keys are distinct, so the
    order is the order of the keys. *)
Fixpoint insert_group (g : nat * list IssueItem) (gs : Groups) : Groups :=
  match gs with
  | [] => [g]
  | g' :: gs' => if Nat.leb (fst g) (fst g') then g :: gs else g' :: insert_group g gs'
  end.

Definition sort_groups (gs : Groups) : Groups := fold_right insert_group [] gs.

Section Annotator.

(** [_short_citation(ev)]: a regular-expression extraction of a law/article
    reference from the snippet, falling back to [ev.ref_id]. *)
Variable short_citation : IssueEvidence -> string.

Definition cite_of (it : IssueItem) : string :=
  match evidence it with e :: _ => short_citation e | [] => "" end.

Definition sev_of (it : IssueItem) : string :=
  if nonempty (severity it) then "[" ++ severity it ++ "] " else "".

Definition sug_of (it : IssueItem) : string :=
  match suggestion it with
  | Some s => if nonempty s then " Suggestion: " ++ s else ""
  | None => ""
  end.

Definition per_of (it : IssueItem) : string :=
  let cite := cite_of it in if nonempty cite then " (Per " ++ cite ++ ")" else "".

(** [f"{i}. {sev}{it.issue}" + (f" (Per {cite})" if cite else "") + sug] *)
Definition note_part (i : nat) (it : IssueItem) : string :=
  string_of_nat i ++ ". " ++ sev_of it ++ issue it ++ per_of it ++ sug_of it.

Fixpoint note_parts (i : nat) (l : list IssueItem) : list string :=
  match l with
  | [] => []
  | it :: l' => note_part i it :: note_parts (S i) l'
  end.

(** The loop [for p_idx, iss_list in sorted(paragraph_to_issues.items())]. *)
Fixpoint place_groups (issues : list IssueItem) (llm_map : list (Z * Z))
    (groups : Groups) (d : Document) : Result Document :=
  match groups with
  | [] => inr d
  | (p_idx, iss_list) :: gs =>
      let note_text := join_with "; " (note_parts 1 iss_list) in
      match iss_list with
      | [] => inl IndexError
      | first :: _ =>
          match list_index first issues with
          | inl e => inl e
          | inr k =>
              let target_idx := dict_get (Z.of_nat k) llm_map (Z.of_nat p_idx) in
              match py_index (List.length (paragraphs d)) target_idx with
              | inl e => inl e
              | inr t =>
                  let d1 := fst (_add_word_comment d t note_text) in
                  let d2 := _add_inline_comment d1 t note_text in
                  place_groups issues llm_map gs d2
              end
          end
      end
  end.

(** The ["Unanchored Comments"] section. *)
Definition unanchored_blocks (unanchored : list IssueItem) : list Block :=
  match unanchored with
  | [] => []
  | _ =>
      BParagraph "" :: BHeading 2 "Unanchored Comments"
      :: map (fun it => BParagraph ("- " ++ sev_of it ++ issue it ++ per_of it ++ sug_of it))
             unanchored
  end.

Definition citation_block (ev : IssueEvidence) : Block :=
  let src := match source_url ev with
             | Some u => if nonempty u then " (source: " ++ u ++ ")" else ""
             | None => ""
             end in
  BParagraph ("Citation " ++ ref_id ev ++ ": " ++ snippet ev ++ src).

(** The blocks of one appendix entry. *)
Definition entry_blocks (n : nat) (it : IssueItem) : list Block :=
  (BEntry n it
   :: (match suggestion it with
       | Some s => if nonempty s then [BParagraph ("Suggestion: " ++ s)] else []
       | None => []
       end)
   ++ map citation_block (evidence it))%list.

(** The consolidated ["Issues Found (Automated Review)"] section. *)
Definition issues_appendix (issues : list IssueItem) : list Block :=
  (BPageBreak :: BHeading 1 "Issues Found (Automated Review)"
   :: match issues with
      | [] => [BParagraph "No issues were detected."]
      | _ => List.concat (map (fun '(n, it) => entry_blocks n it)
                         (combine (seq 1 (List.length issues)) issues))
      end)%list.

(** [annotate_docx] up to the final save, on the loaded document. *)
Definition annotate_document (env : Env) (issues : list IssueItem) (d : Document)
  : Result Document :=
  let paras := para_texts d in
  let (paragraph_to_issues, unanchored) :=
    group_issues (resolve_anchor (embed_scores env) paras) issues in
  let llm_map := _llm_anchor_map (llm env) paras issues in
  match place_groups issues llm_map (sort_groups paragraph_to_issues) d with
  | inl e => inl e
  | inr d1 =>
      inr (mkDoc (paragraphs d1)
                 (appended d1 ++ unanchored_blocks unanchored ++ issues_appendix issues)%list
                 (comments d1))
  end.

(** [annotate_docx(original_path, issues)] for the document [d] loaded from
    [original_path]. *)
Definition annotate_docx (env : Env) (original_path : string)
    (issues : list IssueItem) (d : Document) : M string :=
  _ <- lift (annotate_document env issues d) ;;
  write_output env original_path.

End Annotator.

(** ** Similarity retriever ([app/services/retriever.py]) *)

(** An entry of [meta.json]; a missing key is [None]. *)
Record ChunkMeta := mkMeta {
  source_path : option string;
  chunk_index : option Z;
  title : option string;
  meta_source_url : option string
}.

(** A search result dict. *)
Record Hit := mkHit {
  hit_score : Q;
  hit_chunk : string;
  hit_ref_id : string;
  hit_source_path : string;
  hit_title : string;
  hit_source_url : option string
}.

(** The FAISS index read from [index.faiss]: [index.search(q_vec, k)] on one
    query vector, as its row of (score, id) pairs; FAISS pads the row with
    id [-1] when fewer than [k] vectors are indexed. *)
Definition FaissIndex := list Q -> nat -> list (Q * Z).

Record FaissRetriever := mkRetriever {
  index : FaissIndex;
  chunks : list string;
  meta : list ChunkMeta;
  top_k : nat
}.

(** The persisted corpus: each file, parsed, or [None] when it does not
    exist. *)
Record CorpusFiles := mkCorpus {
  index_faiss : option FaissIndex;
  chunks_json : option (list string);
  meta_json : option (list ChunkMeta)
}.

(** [os.path.exists] of a file. *)
Definition exists_file {A} (f : option A) : bool :=
  match f with Some _ => true | None => false end.

(** [FaissRetriever.__init__(top_k)]: the existence check covers
    [index.faiss] and [chunks.json]; [open(meta_path)] raises
    [FileNotFoundError] when [meta.json] is absent. *)
Definition FaissRetriever_init (fs : CorpusFiles) (k : nat) : Result FaissRetriever :=
  if negb (exists_file (index_faiss fs) && exists_file (chunks_json fs)) then inl IndexUnavailable
  else match index_faiss fs, chunks_json fs, meta_json fs with
       | Some ix, Some cs, Some ms => inr (mkRetriever ix cs ms k)
       | Some _, Some _, None => inl FileNotFoundError
       | _, _, _ => inl IndexUnavailable
       end.

Definition opt_default (d : string) (o : option string) : string :=
  match o with Some s => s | None => d end.

(** The result dict built for one (score, idx) pair. *)
Definition make_hit (score : Q) (chunk : string) (m : ChunkMeta) : Result Hit :=
  match source_path m, chunk_index m with
  | Some sp, Some ci =>
      inr (mkHit score chunk (basename sp ++ "#chunk-" ++ string_of_Z ci)
                 (opt_default "" (source_path m))
                 (opt_default (basename (opt_default "" (source_path m))) (title m))
                 (meta_source_url m))
  | _, _ => inl KeyError
  end.

(** The loop of [FaissRetriever.search] over [zip(scores[0], idxs[0])]. *)
Fixpoint search_results (cs : list string) (ms : list ChunkMeta)
    (row : list (Q * Z)) : Result (list Hit) :=
  match row with
  | [] => inr []
  | (score, idx) :: row' =>
      if Z.eqb idx (-1) then search_results cs ms row'
      else match py_index (List.length cs) idx, py_index (List.length ms) idx with
           | inl e, _ | _, inl e => inl e
           | inr i, inr j =>
               match make_hit score (nth i cs "") (nth j ms (mkMeta None None None None)) with
               | inl e => inl e
               | inr h =>
                   match search_results cs ms row' with
                   | inl e => inl e
                   | inr hs => inr (h :: hs)
                   end
               end
           end
  end.

(** [FaissRetriever.search(query)]; [embed_query] is [embed_texts([query])],
    [None] when it raises. *)
Definition search (embed_query : string -> option (list Q)) (r : FaissRetriever)
    (query : string) : Result (list Hit) :=
  match embed_query query with
  | None => inl EmbeddingError
  | Some q_vec => search_results (chunks r) (meta r) (index r q_vec (top_k r))
  end.

(** A row entry other than FAISS's padding id [-1]. *)
Definition not_padding (p : Q * Z) : bool := negb (Z.eqb (snd p) (-1)).

(** The result [h] was built from the row entry [p]: its chunk and its
    metadata are read at the same offset [idx] of the two arrays. *)
Definition hit_from_entry (cs : list string) (ms : list ChunkMeta)
    (h : Hit) (p : Q * Z) : Prop :=
  snd p <> (-1)%Z
  /\ nth_error cs (Z.to_nat (snd p)) = Some (hit_chunk h)
  /\ exists m, nth_error ms (Z.to_nat (snd p)) = Some m
               /\ make_hit (fst p) (hit_chunk h) m = inr h.

(** ** Compliance checker ([app/agents/compliance_checker.py]) *)

Definition evidence_of_hit (h : Hit) : IssueEvidence :=
  mkEvidence (hit_ref_id h) (take 400 (hit_chunk h)) (hit_source_url h).

Section Heuristic.

(** [retriever.search] on the calls of one document's heuristic pass. *)
Variable search_fn : string -> list Hit.

(** [cite(query)] with the set [used_refs] threaded through as a list. *)
Definition cite (used_refs : list string) (query : string)
  : list IssueEvidence * list string :=
  let hits := search_fn query in
  match find (fun h => nonempty (hit_ref_id h)
                       && negb (existsb (String.eqb (hit_ref_id h)) used_refs)) hits with
  | Some h => ([evidence_of_hit h], (used_refs ++ [hit_ref_id h])%list)
  | None =>
      match hits with
      | h :: _ => ([evidence_of_hit h], used_refs)
      | [] => ([], used_refs)
      end
  end.

Definition q_jurisdiction : string :=
  "ADGM jurisdiction courts Companies Regulations article jurisdiction courts".
Definition q_signature : string :=
  "ADGM execution signature requirements signatory section".
Definition q_adgm : string :=
  "ADGM Companies Regulations reference incorporation under ADGM".

Definition heuristic_issue (file_name display_name text sev sug : string)
    (ev : list IssueEvidence) : IssueItem :=
  mkIssue display_name "" text sev ev (Some sug) (Some file_name) None None None.

Definition sug_jurisdiction : string :=
  "Specify ADGM Courts as the governing jurisdiction. Suggested clause: 'This Agreement shall be governed by the laws of the Abu Dhabi Global Market (ADGM), and the courts of ADGM shall have exclusive jurisdiction.'".
Definition sug_signature : string :=
  "Add signatory block with name, title, date, and authorized signature. Example: 'Signed for and on behalf of the Company by: Name: __________  Title: __________  Date: __________  Signature: __________'".
Definition sug_adgm : string :=
  "Add a clause clarifying ADGM incorporation. Suggested wording: 'The Company is incorporated and existing under the Abu Dhabi Global Market (ADGM) Companies Regulations.'".

(** [_heuristic_issues(file_name, display_name, text, retriever)], also
    returning the final [used_refs]. *)
Definition _heuristic_issues (file_name display_name text : string)
  : list IssueItem * list string :=
  let lower_t := lower text in
  let '(i1, u1) :=
    if contains "jurisdiction" lower_t || contains "federal" lower_t
       || contains "uae courts" lower_t || contains "abu dhabi courts" lower_t
    then let '(ev, u) := cite [] q_jurisdiction in
         ([heuristic_issue file_name display_name
             "Jurisdiction references non-ADGM courts." "High" sug_jurisdiction ev], u)
    else ([], []) in
  let '(i2, u2) :=
    if negb (contains "signature" lower_t) && negb (contains "signed" lower_t)
    then let '(ev, u) := cite u1 q_signature in
         ([heuristic_issue file_name display_name
             "Missing explicit signatory section." "Medium" sug_signature ev], u)
    else ([], u1) in
  let '(i3, u3) :=
    if negb (contains "adgm" lower_t)
    then let '(ev, u) := cite u2 q_adgm in
         ([heuristic_issue file_name display_name
             "Document does not explicitly reference ADGM." "Low" sug_adgm ev], u)
    else ([], u2) in
  ((i1 ++ i2 ++ i3)%list, u3).

End Heuristic.

(** [check_compliance]: the retriever is constructed first, outside any
    [try]; [rest] is the remainder of the function given the retriever. *)
Definition check_compliance (fs : CorpusFiles)
    (rest : FaissRetriever -> Result (list IssueItem)) : Result (list IssueItem) :=
  match FaissRetriever_init fs 4 with
  | inl e => inl e
  | inr retriever => rest retriever
  end.

(** ** The language-model path of [check_compliance] *)

(** A JSON value as [json.loads] returns it.  An object keeps its key/value
    pairs in document order. *)
#[warnings="-register-all"]
Inductive Json :=
| JNull
| JBool (b : bool)
| JNum (q : Q)
| JStr (s : string)
| JList (l : list Json)
| JObj (kvs : list (string * Json)).

(** The value of key [k] in the dict built by [json.loads]: a repeated key
    keeps its last value. *)
Fixpoint obj_lookup (k : string) (kvs : list (string * Json)) : option Json :=
  match kvs with
  | [] => None
  | (k', v) :: kvs' =>
      match obj_lookup k kvs' with
      | Some w => Some w
      | None => if String.eqb k k' then Some v else None
      end
  end.

(** [d.get(k, default)] on a dict parsed from JSON. *)
Definition json_get (k : string) (kvs : list (string * Json)) (default : Json) : Json :=
  match obj_lookup k kvs with Some v => v | None => default end.

(** Python truthiness of a JSON value. *)
Definition json_truthy (v : Json) : bool :=
  match v with
  | JNull => false
  | JBool b => b
  | JNum q => negb (Qeq_bool q 0)
  | JStr s => nonempty s
  | JList l => match l with [] => false | _ => true end
  | JObj kvs => match kvs with [] => false | _ => true end
  end.

(** Pydantic (v2, lax mode) validation of a [str] field: only a [str] is
    accepted; [None] is the [ValidationError]. *)
Definition py_str (v : Json) : option string :=
  match v with JStr s => Some s | _ => None end.

(** Pydantic validation of an [Optional[str]] field. *)
Definition py_opt_str (v : Json) : option (option string) :=
  match v with JNull => Some None | JStr s => Some (Some s) | _ => None end.

Fixpoint all_some {A B} (f : A -> option B) (l : list A) : option (list B) :=
  match l with
  | [] => Some []
  | x :: l' =>
      match f x with
      | None => None
      | Some y => match all_some f l' with None => None | Some ys => Some (y :: ys) end
      end
  end.

(** [v[:n]] on a value read from JSON: strings and lists are sliced; any
    other value raises [TypeError]. *)
Definition json_slice (n : nat) (v : Json) : option Json :=
  match v with
  | JStr s => Some (JStr (take n s))
  | JList l => Some (JList (firstn n l))
  | _ => None
  end.

(** The errors that escape [check_compliance]: those of the retriever, and
    the [AttributeError] and [TypeError] raised outside its [try] blocks. *)
Inductive CExn :=
| CErr (e : Exn)
| CAttributeError
| CTypeError.

(** [segments = [c.get("text", "") for c in clauses] or [text]]; [None] when
    a clause is not a dict ([AttributeError]). *)
Definition segments_of (text : string) (clauses : list Json) : option (list Json) :=
  match all_some (fun c => match c with
                           | JObj kvs => Some (json_get "text" kvs (JStr ""))
                           | _ => None
                           end) clauses with
  | None => None
  | Some [] => Some [JStr text]
  | Some segs => Some segs
  end.

(** The "unique and truncate" loop over the gathered hits, from
    [seen = set()] and [ctx_hits = []]. *)
Fixpoint dedup_hits (seen : list string) (ctx : list Hit) (hits : list Hit) : list Hit :=
  match hits with
  | [] => ctx
  | h :: hs =>
      let key := hit_ref_id h in
      let '(seen', ctx') :=
        if nonempty key && negb (existsb (String.eqb key) seen)
        then ((seen ++ [key])%list, (ctx ++ [h])%list) else (seen, ctx) in
      if Nat.leb 6 (List.length ctx') then ctx' else dedup_hits seen' ctx' hs
  end.

Definition ctx_hits (hits : list Hit) : list Hit := dedup_hits [] [] hits.

(** [[IssueEvidence(ref_id=e.get("ref_id", ""), snippet=e.get("snippet", ""),
    source_url=e.get("source_url"))]] for one element [e]. *)
Definition llm_evidence_item (e : Json) : option IssueEvidence :=
  match e with
  | JObj kvs =>
      match py_str (json_get "ref_id" kvs (JStr "")),
            py_str (json_get "snippet" kvs (JStr "")),
            py_opt_str (json_get "source_url" kvs JNull) with
      | Some r, Some s, Some u => Some (mkEvidence r s u)
      | _, _, _ => None
      end
  | _ => None
  end.

(** The comprehension over [item.get("evidence", [])]: iterating a list, an
    empty string or an empty dict; a non-empty string or dict yields
    elements without [.get], anything else is not iterable. *)
Definition llm_evidence (v : Json) : option (list IssueEvidence) :=
  match v with
  | JList l => all_some llm_evidence_item l
  | JStr s => if nonempty s then None else Some []
  | JObj [] => Some []
  | _ => None
  end.

Section ComplianceLLM.

(** [retriever.search(q)] of the retriever built by [check_compliance], on
    whatever value the code passes as the query. *)
Variable retr : Json -> Result (list Hit).

(** The JSON list [_run_json_list] returns for the query-expansion prompt of
    a segment; [None] when it raises (caught in [lc_expand_queries]). *)
Variable expand_llm : Json -> option (list Json).

(** [llm.generate_json_list(prompt)] for the prompt built from [seg[:4000]]
    and the context hits; [None] when it raises. *)
Variable gen_llm : Json -> list Hit -> option (list Json).

(** Pydantic's validation of [groundedness: Optional[float]] with
    [ge=0.0, le=1.0]. *)
Variable py_unit_float : Json -> option (option Q).

(** [lc_segment_clauses(text)]: the JSON list returned, or [[]] when the
    call raised. *)
Variable segment_llm : string -> list Json.

(** [lc_expand_queries(seg)] *)
Definition lc_expand_queries (seg : Json) : list Json :=
  match expand_llm seg with
  | Some raw => filter (fun q => match q with JStr _ => true | _ => false end) raw
  | None => []
  end.

(** [for q in queries[:3]: try: hits.extend(retriever.search(q)) except: pass] *)
Fixpoint gather_hits (queries : list Json) : list Hit :=
  match queries with
  | [] => []
  | q :: qs =>
      ((match retr q with inr hs => hs | inl _ => [] end) ++ gather_hits qs)%list
  end.

(** The [IssueItem(...)] built from one element of the model's answer;
    [None] when building it raises. *)
Definition llm_issue (file_name display_name : string) (item : Json) : option IssueItem :=
  match item with
  | JObj kvs =>
      match llm_evidence (json_get "evidence" kvs (JList [])) with
      | None => None
      | Some ev =>
          let doc := json_get "document" kvs (JStr display_name) in
          let doc := if json_truthy doc then doc else JStr display_name in
          match py_str doc, py_str (json_get "section" kvs (JStr "")),
                py_str (json_get "issue" kvs (JStr "")),
                py_str (json_get "severity" kvs (JStr "Medium")),
                py_opt_str (json_get "suggestion" kvs JNull),
                py_opt_str (json_get "suggestion_long" kvs JNull),
                py_opt_str (json_get "category" kvs JNull),
                py_unit_float (json_get "groundedness" kvs JNull) with
          | Some d, Some s, Some i, Some sev, Some sug, Some sugl, Some cat, Some g =>
              Some (mkIssue d s i sev ev sug (Some file_name) cat g sugl)
          | _, _, _, _, _, _, _, _ => None
          end
      end
  | _ => None
  end.

(** [for item in data: issues_all.append(...)] inside the [try]: the items
    before the first one that raises are kept. *)
Fixpoint append_until_fail (file_name display_name : string) (data : list Json)
  : list IssueItem :=
  match data with
  | [] => []
  | item :: data' =>
      match llm_issue file_name display_name item with
      | Some it => it :: append_until_fail file_name display_name data'
      | None => []
      end
  end.

(** One iteration of [for seg in segments]; [None] when [seg[:300]] raises
    [TypeError] (outside any [try]). *)
Definition segment_issues (file_name display_name : string) (seg : Json)
  : option (list IssueItem) :=
  match json_slice 300 seg, json_slice 4000 seg with
  | Some q0, Some clause =>
      let queries := q0 :: lc_expand_queries seg in
      let hits := gather_hits (firstn 3 queries) in
      match gen_llm clause (ctx_hits hits) with
      | Some data => Some (append_until_fail file_name display_name data)
      | None => Some []
      end
  | _, _ => None
  end.

(** [issues_all] after the loop over the segments. *)
Fixpoint llm_pass (file_name display_name : string) (segs : list Json)
  : option (list IssueItem) :=
  match segs with
  | [] => Some []
  | seg :: segs' =>
      match segment_issues file_name display_name seg with
      | None => None
      | Some l =>
          match llm_pass file_name display_name segs' with
          | None => None
          | Some l' => Some (l ++ l')%list
          end
      end
  end.

End ComplianceLLM.

(** [cite(query)] when [retriever.search] may raise. *)
Definition cite_r (retr_q : string -> Result (list Hit)) (used_refs : list string)
    (query : string) : Result (list IssueEvidence * list string) :=
  match retr_q query with
  | inl e => inl e
  | inr hits => inr (cite (fun _ => hits) used_refs query)
  end.

(** [_heuristic_issues(file_name, display_name, text, retriever)] with a
    [retriever.search] that may raise: the exception escapes. *)
Definition _heuristic_issues_r (retr_q : string -> Result (list Hit))
    (file_name display_name text : string) : Result (list IssueItem) :=
  let lower_t := lower text in
  let r1 :=
    if contains "jurisdiction" lower_t || contains "federal" lower_t
       || contains "uae courts" lower_t || contains "abu dhabi courts" lower_t
    then match cite_r retr_q [] q_jurisdiction with
         | inl e => inl e
         | inr (ev, u) =>
             inr ([heuristic_issue file_name display_name
                     "Jurisdiction references non-ADGM courts." "High" sug_jurisdiction ev], u)
         end
    else inr ([], []) in
  match r1 with
  | inl e => inl e
  | inr (i1, u1) =>
      let r2 :=
        if negb (contains "signature" lower_t) && negb (contains "signed" lower_t)
        then match cite_r retr_q u1 q_signature with
             | inl e => inl e
             | inr (ev, u) =>
                 inr ([heuristic_issue file_name display_name
                         "Missing explicit signatory section." "Medium" sug_signature ev], u)
             end
        else inr ([], u1) in
      match r2 with
      | inl e => inl e
      | inr (i2, u2) =>
          let r3 :=
            if negb (contains "adgm" lower_t)
            then match cite_r retr_q u2 q_adgm with
                 | inl e => inl e
                 | inr (ev, u) =>
                     inr ([heuristic_issue file_name display_name
                             "Document does not explicitly reference ADGM." "Low" sug_adgm ev], u)
                 end
            else inr ([], u2) in
          match r3 with
          | inl e => inl e
          | inr (i3, _) => inr (i1 ++ i2 ++ i3)%list
          end
      end
  end.

(** [check_compliance(file_name, display_name, text)]; [llm_on] is
    [get_llm_client() is not None]. *)
Definition check_compliance_full (retr : Json -> Result (list Hit))
    (expand_llm : Json -> option (list Json)) (gen_llm : Json -> list Hit -> option (list Json))
    (py_unit_float : Json -> option (option Q)) (segment_llm : string -> list Json)
    (fs : CorpusFiles) (llm_on : bool) (file_name display_name text : string)
  : CExn + list IssueItem :=
  match FaissRetriever_init fs 4 with
  | inl e => inl (CErr e)
  | inr _ =>
      let heuristic :=
        match _heuristic_issues_r (fun q => retr (JStr q)) file_name display_name text with
        | inl e => inl (CErr e)
        | inr l => inr l
        end in
      if negb llm_on then heuristic
      else match segments_of text (segment_llm text) with
           | None => inl CAttributeError
           | Some segs =>
               match llm_pass retr expand_llm gen_llm py_unit_float file_name display_name segs with
               | None => inl CTypeError
               | Some [] => heuristic
               | Some issues_all => inr issues_all
               end
           end
  end.

(** ** The workflow nodes ([app/workflows/corporate_agent_graph.py]) *)

(** [d[k] = v] on a string-keyed dict kept in insertion order. *)
Fixpoint sdict_set {V} (k : string) (v : V) (m : list (string * V)) : list (string * V) :=
  match m with
  | [] => [(k, v)]
  | (k', v') :: m' => if String.eqb k k' then (k', v) :: m' else (k', v') :: sdict_set k v m'
  end.

(** [d.get(k, default)] *)
Fixpoint sdict_get {V} (k : string) (m : list (string * V)) (default : V) : V :=
  match m with
  | [] => default
  | (k', v) :: m' => if String.eqb k k' then v else sdict_get k m' default
  end.

Record IntakeDoc := mkIntakeDoc {
  filename : string;
  doc_type : string;
  text : string
}.

Section Intake.

(** [os.path.exists(path)] *)
Variable path_exists : string -> bool.
(** [_read_docx(path)]: the paragraph texts joined, or the exception of
    the [.docx] parser. *)
Variable _read_docx : string -> Result string.
(** [_classify(text)] *)
Variable _classify : string -> string.

(** [run_doc_intake(file_paths).docs]; the extension test
    [os.path.splitext(path)[1]] is that of the final path component. *)
Fixpoint run_doc_intake (file_paths : list string) : Result (list IntakeDoc) :=
  match file_paths with
  | [] => inr []
  | path :: ps =>
      if negb (path_exists path) then run_doc_intake ps
      else if negb (String.eqb (lower (snd (splitext (basename path)))) ".docx")
      then run_doc_intake ps
      else match _read_docx path with
           | inl e => inl e
           | inr t =>
               match run_doc_intake ps with
               | inl e => inl e
               | inr docs => inr (mkIntakeDoc (basename path) (_classify t) t :: docs)
               end
           end
  end.

End Intake.

(** [state["intake_cache"] = {d.filename: d.text for d in intake.docs}] *)
Definition intake_cache (docs : list IntakeDoc) : list (string * string) :=
  fold_left (fun m d => sdict_set (filename d) (text d) m) docs [].

(** [{os.path.basename(p): t for p, t in zip(state["file_paths"],
    state.get("doc_types", []))}] *)
Definition type_map (file_paths doc_types : list string) : list (string * string) :=
  fold_left (fun m pt => sdict_set (basename (fst pt)) (snd pt) m)
            (combine file_paths doc_types) [].

Section NodeCompliance.

(** [check_compliance(filename, display, text)] *)
Variable check : string -> string -> string -> CExn + list IssueItem.

Fixpoint compliance_loop (tm : list (string * string)) (texts : list (string * string))
  : CExn + list IssueItem :=
  match texts with
  | [] => inr []
  | (fname, t) :: texts' =>
      match check fname (sdict_get fname tm fname) t with
      | inl e => inl e
      | inr l =>
          match compliance_loop tm texts' with
          | inl e => inl e
          | inr l' => inr (l ++ l')%list
          end
      end
  end.

(** [node_compliance(state)]: the [issues] it stores. *)
Definition node_compliance (file_paths doc_types : list string)
    (cache : list (string * string)) : CExn + list IssueItem :=
  compliance_loop (type_map file_paths doc_types) cache.

End NodeCompliance.

(** [(i.source_filename == fname) or (i.document == fname)] *)
Definition issue_matches (fname : string) (i : IssueItem) : bool :=
  match source_filename i with Some s => String.eqb s fname | None => false end
  || String.eqb (document i) fname.

Section NodeAnnotate.

(** [annotate_docx(in_path, matching)] *)
Variable annotate : string -> list IssueItem -> M string.

Fixpoint annotate_loop (annotated : list (string * string)) (file_paths : list string)
    (issues : list IssueItem) : M (list (string * string)) :=
  match file_paths with
  | [] => ret annotated
  | in_path :: ps =>
      let fname := basename in_path in
      outp <- annotate in_path (filter (issue_matches fname) issues) ;;
      annotate_loop (sdict_set fname outp annotated) ps issues
  end.

(** [node_annotate(state)]: the [annotated_paths] it stores. *)
Definition node_annotate (file_paths : list string) (issues : list IssueItem)
  : M (list (string * string)) :=
  annotate_loop [] file_paths issues.

End NodeAnnotate.

(** ** Measures used in the statements *)

(** The value the LLM map keeps for issue [ii]: the [paragraph_idx] of the
    last dict of the answer that proposes one for it. *)
Fixpoint last_proposal (ii : Z) (data : list LlmItem) : option Z :=
  match data with
  | [] => None
  | LDict (Some i) (Some p) :: data' =>
      match last_proposal ii data' with
      | Some q => Some q
      | None => if Z.eqb i ii then Some p else None
      end
  | _ :: data' => last_proposal ii data'
  end.

(** The number of inline notes and of comment ranges over the original
    paragraphs of a document. *)
Definition total_notes (d : Document) : nat :=
  fold_right (fun p n => List.length (inline_notes p) + n) 0 (paragraphs d).

Definition total_ranges (d : Document) : nat :=
  fold_right (fun p n => List.length (range_ids p) + n) 0 (paragraphs d).

(** The measures used by the further statements. *)

(** The fields of an issue raised by [_heuristic_issues]: one of its three
    fixed rules, at most one citation, a snippet of at most 400 characters. *)
Definition heuristic_issue_ok (file_name display_name : string) (i : IssueItem) : Prop :=
  document i = display_name /\ section i = "" /\ source_filename i = Some file_name
  /\ groundedness i = None /\ List.length (evidence i) <= 1
  /\ Forall (fun e => String.length (snippet e) <= 400) (evidence i)
  /\ ((issue i = "Jurisdiction references non-ADGM courts." /\ severity i = "High")
      \/ (issue i = "Missing explicit signatory section." /\ severity i = "Medium")
      \/ (issue i = "Document does not explicitly reference ADGM." /\ severity i = "Low")).

(** A retriever whose [search] errors are replaced by an empty result. *)
Definition swallow_errors (retr : Json -> Result (list Hit)) (q : Json) : Result (list Hit) :=
  match retr q with inl _ => inr [] | inr h => inr h end.

(** A per-paragraph count summed over the paragraphs. *)
Definition para_sum (m : Paragraph -> nat) (ps : list Paragraph) : nat :=
  fold_right (fun p n => m p + n) 0 ps.

(** The paths [run_doc_intake] reads: existing files whose final component
    has the extension [.docx] in any case. *)
Definition intake_accepts (path_exists : string -> bool) (path : string) : bool :=
  path_exists path && String.eqb (lower (snd (splitext (basename path)))) ".docx".

(** ** Sample inputs *)

Definition sample_issue : IssueItem :=
  mkIssue "Employment Contract" "" "Jurisdiction references non-ADGM courts." "High" []
          None (Some "contract.docx") None None None.

Definition sample_doc : Document :=
  mkDoc [mkPara "Disputes go to the UAE Federal Courts." [] [] false;
         mkPara "Signed by the parties." [] [] false] [] (Some [IdValue 3%Z]).

Definition sample_env : Env :=
  mkEnv "out" (fun _ => None) "20260101-000000" "abcdef012345" (fun _ _ => None) None.

Definition sample_annotated : Document :=
  match annotate_document ref_id sample_env [sample_issue] sample_doc with
  | inr x => x | inl _ => sample_doc end.

Definition sample_groups : Groups :=
  fst (group_issues (resolve_anchor (embed_scores sample_env) (para_texts sample_doc))
                    [sample_issue]).

Definition address_issue : IssueItem :=
  mkIssue "Employment Contract" "" "Registered office address is incomplete." "Medium" []
          None (Some "contract.docx") None None None.

Definition two_group_doc : Document :=
  mkDoc [mkPara "Disputes go to the UAE Federal Courts." [] [] false;
         mkPara "Registered office address: to be confirmed." [] [] false] []
        (Some [IdValue 3%Z]).

Definition two_group_annotated : Document :=
  match annotate_document ref_id sample_env [sample_issue; address_issue] two_group_doc with
  | inr x => x | inl _ => two_group_doc end.

Definition two_groups : Groups :=
  fst (group_issues (resolve_anchor (embed_scores sample_env) (para_texts two_group_doc))
                    [sample_issue; address_issue]).

Definition sample_index : FaissIndex := fun _ _ => [].

Definition sample_corpus : CorpusFiles := mkCorpus (Some sample_index) (Some []) (Some []).

Definition no_hits : Json -> Result (list Hit) := fun _ => inr [].

Definition no_expansion : Json -> option (list Json) := fun _ => None.

Definition no_answer : Json -> list Hit -> option (list Json) := fun _ _ => None.

Definition any_unit_float : Json -> option (option Q) := fun _ => Some None.

Definition no_clauses : string -> list Json := fun _ => [].

Definition federal_text : string := "Disputes go to the UAE Federal Courts.".

Definition sample_read (_ : string) : Result string := inr federal_text.

Definition sample_classify (_ : string) : string := "Employment Contract".

Definition sample_paths : list string := ["in/contract.docx"; "in/notes.txt"; "in/Board.DOCX"].

Definition sample_docs : list IntakeDoc :=
  match run_doc_intake (fun _ => true) sample_read sample_classify sample_paths with
  | inr docs => docs | inl _ => [] end.

Definition accepted_paths : list string := ["in/contract.docx"; "in/Board.DOCX"].

Definition accepted_docs : list IntakeDoc :=
  match run_doc_intake (fun _ => true) sample_read sample_classify accepted_paths with
  | inr docs => docs | inl _ => [] end.

Definition echo_annotate (p : string) (_ : list IssueItem) : M string := ret p.

Definition dup_paths : list string := ["a/x.docx"; "b/x.docx"; "c/y.docx"].

Definition dup_run : list string * Result (list (string * string)) :=
  node_annotate echo_annotate dup_paths [] [].

Definition dup_annotated : list (string * string) :=
  match snd dup_run with inr res => res | inl _ => [] end.

(** ** Reference statements written from the specification *)

(** The candidates of the substring strategy in the specification's order:
    the first evidence snippet, the issue text, the section label. *)
Definition spec_candidates (it : IssueItem) : list string :=
  ((match evidence it with e :: _ => [snippet e] | [] => [] end)
   ++ [issue it; section it])%list.

(** Candidate [c] matches paragraph text [p]: [c] is non-empty and its first
    30 characters occur in [p], both lowered. *)
Definition cand_matches (c p : string) : Prop :=
  c <> EmptyString /\ contains (take 30 (lower c)) (lower p) = true.

Definition para_matches (cands : list string) (p : string) : Prop :=
  exists c, In c cands /\ cand_matches c p.

(* ================================================================== *)
(** * Proofs *)

(** ** Strings *)

Lemma nonempty_true (s : string) : nonempty s = true <-> s <> EmptyString.
Proof. destruct s; simpl; split; congruence. Qed.

Lemma nonempty_lower (s : string) : nonempty (lower s) = nonempty s.
Proof. destruct s; reflexivity. Qed.

(** ** The substring strategy *)

Section FindFrom.

Variable lowered : list string.

Let hit (p : string) : bool :=
  existsb (fun c => nonempty c && contains (take 30 c) (lower p)) lowered.

Lemma find_from_some (ps : list string) (k i : nat) :
  find_from lowered k ps = Some i <->
  (k <= i /\ i - k < List.length ps /\ hit (nth (i - k) ps "") = true
   /\ forall j, j < i - k -> hit (nth j ps "") = false).
Proof.
  revert k. induction ps as [|p ps IH]; intros k; simpl.
  - split; [discriminate | lia].
  - fold (hit p). destruct (hit p) eqn:Hp.
    + split.
      * intros H; injection H as <-. rewrite Nat.sub_diag. simpl.
        repeat split; try lia; auto.
      * intros (Hki & Hlen & Hhit & Hbefore).
        destruct (Nat.eq_dec i k) as [->|Hne]; [reflexivity|].
        specialize (Hbefore 0 ltac:(lia)). simpl in Hbefore. congruence.
    + rewrite IH. split.
      * intros (Hki & Hlen & Hhit & Hbefore).
        replace (i - k) with (S (i - S k)) by lia. simpl.
        repeat split; try lia; auto.
        intros [|j] Hj; simpl; auto. apply Hbefore. lia.
      * intros (Hki & Hlen & Hhit & Hbefore).
        destruct (Nat.eq_dec i k) as [->|Hne].
        { rewrite Nat.sub_diag in Hhit. simpl in Hhit. congruence. }
        replace (i - k) with (S (i - S k)) in * by lia. simpl in *.
        repeat split; try lia; auto.
        intros j Hj. apply (Hbefore (S j)). lia.
Qed.

Lemma find_from_none (ps : list string) (k : nat) :
  find_from lowered k ps = None <-> forall p, In p ps -> hit p = false.
Proof.
  revert k. induction ps as [|p ps IH]; intros k; simpl.
  - split; auto. intros _ p [].
  - fold (hit p). destruct (hit p) eqn:Hp.
    + split; [discriminate|]. intros H. rewrite (H p (or_introl eq_refl)) in Hp.
      discriminate.
    + rewrite IH. split.
      * intros H q [<-|Hq]; auto.
      * intros H q Hq. auto.
Qed.

End FindFrom.

Lemma find_paragraph_index_scan (ps cands : list string) :
  _find_paragraph_index ps cands = find_from (map lower (filter nonempty cands)) 0 ps.
Proof.
  unfold _find_paragraph_index.
  destruct (map lower (filter nonempty cands)) as [|c l] eqn:E; [|reflexivity].
  symmetry. apply find_from_none. intros p _. reflexivity.
Qed.

Lemma filter_idem {A} (f : A -> bool) (l : list A) : filter f (filter f l) = filter f l.
Proof.
  induction l as [|x l IH]; simpl; auto.
  destruct (f x) eqn:E; simpl; rewrite ?E, IH; auto.
Qed.

Lemma anchor_candidates_filter (it : IssueItem) :
  filter nonempty (anchor_candidates it) = filter nonempty (spec_candidates it).
Proof.
  unfold anchor_candidates, spec_candidates.
  destruct (evidence it) as [|e es]; simpl;
  repeat match goal with
         | |- context [nonempty ?s] => destruct (nonempty s) eqn:?
         end; simpl; rewrite ?Heqb, ?Heqb0, ?Heqb1; reflexivity.
Qed.

Lemma candidate_hit (cands : list string) (p : string) :
  existsb (fun c => nonempty c && contains (take 30 c) (lower p))
          (map lower (filter nonempty cands)) = true
  <-> para_matches cands p.
Proof.
  rewrite existsb_exists. unfold para_matches, cand_matches. split.
  - intros (lc & Hin & Hm). apply in_map_iff in Hin as (c & <- & Hc).
    apply filter_In in Hc as [Hc Hne].
    apply andb_true_iff in Hm as [_ Hm].
    exists c. split; auto. split; auto. apply nonempty_true. exact Hne.
  - intros (c & Hin & Hne & Hm). exists (lower c). split.
    + apply in_map. apply filter_In. split; auto. apply nonempty_true. exact Hne.
    + rewrite nonempty_lower. apply andb_true_iff. split; auto.
      apply nonempty_true. exact Hne.
Qed.

(** C6. The substring strategy builds its candidates in the order: first
    evidence snippet, issue text, section label; it returns the lowest
    paragraph index whose lowered text contains the first 30 characters of
    some non-empty lowered candidate, and no anchor when no paragraph does
    (in particular when no candidate is non-empty).  A paragraph that shares
    only the first 29 characters of a candidate (the 30th differs) is not
    matched, while a paragraph containing the 30-character prefix in another
    case is. *)
Theorem substring_anchor_first_match :
  (forall (paras : list string) (it : IssueItem),
     filter nonempty (anchor_candidates it) = filter nonempty (spec_candidates it)
     /\ (forall i, substring_anchor paras it = Some i <->
          i < List.length paras
          /\ para_matches (spec_candidates it) (nth i paras "")
          /\ forall j, j < i -> ~ para_matches (spec_candidates it) (nth j paras ""))
     /\ (substring_anchor paras it = None <->
          forall p, In p paras -> ~ para_matches (spec_candidates it) p))
  /\ (let it := mkIssue "d" "" "abcdefghijklmnopqrstuvwxyz0123XYZ" "High" []
                       None None None None None in
      substring_anchor ["see abcdefghijklmnopqrstuvwxyz012X here"] it = None
      /\ substring_anchor ["see abcdefghijklmnopqrstuvwxyz012X here";
                           "SEE ABCDEFGHIJKLMNOPQRSTUVWXYZ0123 HERE"] it = Some 1).
Proof.
  split; [|split; vm_compute; reflexivity].
  intros paras it.
  assert (Hcand : forall p,
    existsb (fun c => nonempty c && contains (take 30 c) (lower p))
            (map lower (filter nonempty (anchor_candidates it))) = true
    <-> para_matches (spec_candidates it) p).
  { intros p. rewrite anchor_candidates_filter. apply candidate_hit. }
  assert (Hcand' : forall p,
    existsb (fun c => nonempty c && contains (take 30 c) (lower p))
            (map lower (filter nonempty (anchor_candidates it))) = false
    <-> ~ para_matches (spec_candidates it) p).
  { intros p. rewrite <- Hcand. destruct existsb; split; congruence. }
  split; [apply anchor_candidates_filter|].
  unfold substring_anchor. rewrite find_paragraph_index_scan. split.
  - intros i. rewrite find_from_some, !Nat.sub_0_r. split.
    + intros (_ & Hlen & Hhit & Hbefore). repeat split; auto.
      * apply Hcand. exact Hhit.
      * intros j Hj. apply Hcand'. auto.
    + intros (Hlen & Hm & Hbefore). repeat split; auto; try lia.
      * apply Hcand. exact Hm.
      * intros j Hj. apply Hcand'. auto.
  - rewrite find_from_none. split; intros H p Hp; apply Hcand'; auto.
Qed.

(** ** The keyword strategy *)

Section KeywordScan.

Variable keywords : list string.

Let H (p : string) : nat := keyword_hits keywords p.

Lemma keyword_scan_bound (ps : list string) (k : nat) (bi : option nat) (b : nat) :
  b <= snd (keyword_scan keywords k bi b ps)
  /\ forall p, In p ps -> H p <= snd (keyword_scan keywords k bi b ps).
Proof.
  revert k bi b. induction ps as [|p ps IH]; intros k bi b; simpl.
  - split; [lia | intros _ []].
  - fold (H p). destruct (Nat.ltb_spec b (H p)) as [Hlt|Hge].
    + destruct (IH (S k) (Some k) (H p)) as [IH1 IH2]. split; [lia|].
      intros q [<-|Hq]; auto.
    + destruct (IH (S k) bi b) as [IH1 IH2]. split; [lia|].
      intros q [<-|Hq]; [lia|auto].
Qed.

Lemma keyword_scan_result (ps : list string) (k : nat) (bi : option nat) (b : nat) :
  let r := keyword_scan keywords k bi b ps in
  (fst r = bi /\ snd r = b)
  \/ (exists j, fst r = Some (k + j) /\ j < List.length ps
      /\ H (nth j ps "") = snd r /\ b < snd r
      /\ forall j', j' < j -> H (nth j' ps "") < snd r).
Proof.
  revert k bi b. induction ps as [|p ps IH]; intros k bi b; simpl.
  - left. auto.
  - fold (H p). destruct (Nat.ltb_spec b (H p)) as [Hlt|Hge].
    + right. destruct (IH (S k) (Some k) (H p)) as [[E1 E2]|(j & E1 & Hj & Hh & Hgt & Hb)].
      * exists 0. rewrite E1, E2, Nat.add_0_r. repeat split; simpl; auto; lia.
      * exists (S j). rewrite E1. repeat split; simpl; auto; try lia.
        intros [|j'] Hj'; simpl; [lia|]. apply Hb. lia.
    + destruct (IH (S k) bi b) as [[E1 E2]|(j & E1 & Hj & Hh & Hgt & Hb)].
      * left. auto.
      * right. exists (S j). rewrite E1. repeat split; simpl; auto; try lia.
        intros [|j'] Hj'; simpl.
        -- lia.
        -- apply Hb. lia.
Qed.

End KeywordScan.

Lemma nth_In_lt {A} (l : list A) (j : nat) (d : A) : j < List.length l -> In (nth j l d) l.
Proof. apply nth_In. Qed.

Lemma In_nth_lt {A} (l : list A) (p : A) (d : A) :
  In p l -> exists j, j < List.length l /\ nth j l d = p.
Proof. intros Hp. apply In_nth. exact Hp. Qed.

Lemma keyword_hits_nil (p : string) : keyword_hits [] p = 0.
Proof. reflexivity. Qed.

Lemma keyword_anchor_scan (paras : list string) (it : IssueItem) :
  _keyword_anchor paras it =
  (let r := keyword_scan (anchor_keywords (issue it)) 0 None 0 paras in
   if Nat.ltb 0 (snd r) then fst r else None).
Proof.
  unfold _keyword_anchor. destruct (anchor_keywords (issue it)) as [|k ks] eqn:E.
  - cbv zeta.
    destruct (keyword_scan_result [] paras 0 None 0)
      as [[_ E2]|(j & _ & _ & Hh & Hgt & _)].
    + rewrite E2. reflexivity.
    + rewrite keyword_hits_nil in Hh. lia.
  - destruct (keyword_scan (k :: ks) 0 None 0 paras). reflexivity.
Qed.

(** C7. The keyword strategy returns the paragraph with the strictly highest
    number of matching keyword terms, the lowest such index on ties; it
    returns no anchor exactly when every paragraph has zero matches; an
    absence issue (text containing "signature", or both "adgm" and "not")
    gets no anchor whatever the paragraphs, and so do the two absence issues
    the pipeline raises, the missing signatory section and the missing ADGM
    reference. *)
Theorem keyword_anchor_strict_argmax :
  forall (paras : list string) (it : IssueItem),
  let Hj j := keyword_hits (anchor_keywords (issue it)) (nth j paras "") in
  (forall i, _keyword_anchor paras it = Some i <->
     i < List.length paras /\ 0 < Hj i
     /\ (forall j, j < List.length paras -> Hj j <= Hj i)
     /\ (forall j, j < i -> Hj j < Hj i))
  /\ (_keyword_anchor paras it = None <-> forall j, j < List.length paras -> Hj j = 0)
  /\ ((contains "signature" (lower (issue it))
       || (contains "adgm" (lower (issue it)) && contains "not" (lower (issue it)))) = true
      -> _keyword_anchor paras it = None)
  /\ (issue it = "Missing explicit signatory section."
      \/ issue it = "Document does not explicitly reference ADGM."
      -> _keyword_anchor paras it = None).
Proof.
  intros paras it Hj.
  set (kw := anchor_keywords (issue it)) in *.
  set (r := keyword_scan kw 0 None 0 paras).
  pose proof (keyword_scan_bound kw paras 0 None 0) as [_ Hall].
  pose proof (keyword_scan_result kw paras 0 None 0) as Hres.
  fold r in Hall, Hres. cbv zeta in Hres. fold r in Hres.
  assert (Hle : forall j, j < List.length paras -> Hj j <= snd r).
  { intros j Hjl. apply Hall. apply nth_In. exact Hjl. }
  assert (Hsome : forall i, _keyword_anchor paras it = Some i <->
     i < List.length paras /\ 0 < Hj i
     /\ (forall j, j < List.length paras -> Hj j <= Hj i)
     /\ (forall j, j < i -> Hj j < Hj i)).
  { intros i. rewrite keyword_anchor_scan. fold kw r. cbv zeta.
    destruct Hres as [[E1 E2]|(j & E1 & Hjl & Hh & Hgt & Hb)].
    - rewrite E1, E2. simpl. split; [discriminate|].
      intros (Hil & Hpos & _). specialize (Hle i Hil). lia.
    - rewrite E1. destruct (Nat.ltb_spec 0 (snd r)) as [_|]; [|lia]. simpl. split.
      + intros Hi. injection Hi as <-.
        assert (Hji : Hj j = snd r) by exact Hh.
        split; [exact Hjl|]. split; [lia|]. split.
        * intros j' Hj'. rewrite Hji. apply Hle. exact Hj'.
        * intros j' Hj'. rewrite Hji. apply Hb. exact Hj'.
      + intros (Hil & Hpos & Hmax & Hfirst). f_equal.
        assert (Heq : Hj i = snd r) by (specialize (Hle i Hil); specialize (Hmax j Hjl);
                                        unfold Hj in *; lia).
        destruct (Nat.lt_trichotomy i j) as [Hij|[Hij|Hij]]; auto.
        * specialize (Hb i Hij). unfold Hj in Heq. lia.
        * specialize (Hfirst j Hij). unfold Hj in *. lia. }
  assert (Hnone : _keyword_anchor paras it = None <->
                  forall j, j < List.length paras -> Hj j = 0).
  { split.
    - intros Hn j Hjl. destruct (Hj j) eqn:Ez; auto. exfalso.
      rewrite keyword_anchor_scan in Hn. fold kw r in Hn. cbv zeta in Hn.
      specialize (Hle j Hjl). rewrite Ez in Hle.
      destruct Hres as [[E1 E2]|(j0 & E1 & _ & _ & Hgt & _)]; [lia|].
      rewrite E1 in Hn. destruct (Nat.ltb_spec 0 (snd r)); [discriminate|lia].
    - intros Hz. case_eq (_keyword_anchor paras it); auto. intros i E.
      apply Hsome in E as (Hil & Hpos & _). specialize (Hz i Hil). lia. }
  assert (Habs : (contains "signature" (lower (issue it))
       || (contains "adgm" (lower (issue it)) && contains "not" (lower (issue it)))) = true
      -> _keyword_anchor paras it = None).
  { intros Hs. unfold _keyword_anchor, anchor_keywords. cbv zeta. rewrite Hs. reflexivity. }
  repeat split; try apply Hsome; try apply Hnone; auto.
  intros [Ht|Ht]; unfold _keyword_anchor, anchor_keywords; rewrite Ht; reflexivity.
Qed.

(** ** The semantic strategy *)

Lemma semantic_scan_bound (scores : list Q) (k : nat) (bi : option nat) (b : Q) :
  (b <= snd (semantic_scan k bi b scores))%Q
  /\ forall s, In s scores -> (s <= snd (semantic_scan k bi b scores))%Q.
Proof.
  revert k bi b. induction scores as [|s ss IH]; intros k bi b; simpl.
  - split; [apply Qle_refl | intros _ []].
  - destruct (Qle_bool s b) eqn:Hsb; simpl.
    + apply Qle_bool_iff in Hsb.
      destruct (IH (S k) bi b) as [IH1 IH2]. split; auto.
      intros q [<-|Hq]; auto. apply (Qle_trans _ b); auto.
    + assert (Hlt : (b < s)%Q).
      { apply Qnot_le_lt. intros Hle. apply Qle_bool_iff in Hle. congruence. }
      destruct (IH (S k) (Some k) s) as [IH1 IH2]. split.
      * apply Qlt_le_weak. apply (Qlt_le_trans _ s); auto.
      * intros q [<-|Hq]; auto.
Qed.

Lemma semantic_scan_result (scores : list Q) (k : nat) (bi : option nat) (b : Q) :
  let r := semantic_scan k bi b scores in
  (fst r = bi /\ snd r = b)
  \/ (exists j, fst r = Some (k + j) /\ j < List.length scores
      /\ nth j scores 0%Q = snd r /\ (b < snd r)%Q
      /\ forall j', j' < j -> (nth j' scores 0%Q < snd r)%Q).
Proof.
  revert k bi b. induction scores as [|s ss IH]; intros k bi b; simpl.
  - left. auto.
  - destruct (Qle_bool s b) eqn:Hsb; simpl.
    + apply Qle_bool_iff in Hsb.
      destruct (IH (S k) bi b) as [[E1 E2]|(j & E1 & Hj & Hh & Hgt & Hb)].
      * left. auto.
      * right. exists (S j). rewrite E1. repeat split; simpl; auto; try lia.
        intros [|j'] Hj'; simpl.
        -- apply (Qle_lt_trans _ b); auto.
        -- apply Hb. lia.
    + assert (Hlt : (b < s)%Q).
      { apply Qnot_le_lt. intros Hle. apply Qle_bool_iff in Hle. congruence. }
      right. destruct (IH (S k) (Some k) s) as [[E1 E2]|(j & E1 & Hj & Hh & Hgt & Hb)].
      * exists 0. rewrite E1, E2, Nat.add_0_r. repeat split; simpl; auto; lia.
      * exists (S j). rewrite E1. repeat split; simpl; auto; try lia.
        -- apply (Qlt_trans _ s); auto.
        -- intros [|j'] Hj'; simpl; auto. apply Hb. lia.
Qed.

(** C5. When the issue text is non-empty, the document has paragraphs and
    the embedding call yields a score per paragraph, the semantic strategy
    returns paragraph [i] exactly when [i] has the highest score (the first
    one on ties) and that score is at least the threshold 0.2; it returns no
    anchor exactly when every score is below 0.2.  A score equal to the
    double 0.2 is accepted, the next smaller double 0.19999999999999998 is
    rejected. *)
Theorem semantic_anchor_threshold :
  forall (embed : list string -> string -> option (list Q)) (paras : list string)
         (it : IssueItem) (scores : list Q),
  nonempty (issue it) = true -> paras <> [] -> embed paras (issue it) = Some scores ->
  (forall i, _semantic_anchor embed paras it = Some i <->
     i < List.length scores /\ (semantic_threshold <= nth i scores 0)%Q
     /\ (forall j, j < List.length scores -> (nth j scores 0 <= nth i scores 0)%Q)
     /\ (forall j, j < i -> (nth j scores 0 < nth i scores 0)%Q))
  /\ (_semantic_anchor embed paras it = None <->
      forall j, j < List.length scores -> (nth j scores 0 < semantic_threshold)%Q)
  /\ (let it0 := mkIssue "d" "" "Jurisdiction unclear." "High" [] None None None None None in
      _semantic_anchor (fun _ _ => Some [semantic_threshold]) ["p"] it0 = Some 0
      /\ _semantic_anchor (fun _ _ => Some [3602879701896396 # 18014398509481984]) ["p"] it0
         = None).
Proof.
  intros embed paras it scores Hq Hp He.
  assert (Hunf : _semantic_anchor embed paras it =
    (let r := semantic_scan 0 None (-1) scores in
     match fst r with
     | Some i => if Qle_bool semantic_threshold (snd r) then Some i else None
     | None => None
     end)).
  { unfold _semantic_anchor. rewrite Hq. simpl.
    destruct paras as [|p ps]; [congruence|]. rewrite He.
    destruct (semantic_scan 0 None (-1) scores). reflexivity. }
  set (r := semantic_scan 0 None (-1) scores) in Hunf.
  pose proof (semantic_scan_bound scores 0 None (-1)) as [_ Hall].
  pose proof (semantic_scan_result scores 0 None (-1)) as Hres.
  fold r in Hall, Hres. cbv zeta in Hres. fold r in Hres.
  assert (Hthr : (-1 < semantic_threshold)%Q) by (unfold semantic_threshold; lra).
  assert (Hle : forall j, j < List.length scores -> (nth j scores 0 <= snd r)%Q).
  { intros j Hj. apply Hall. apply nth_In. exact Hj. }
  assert (Hsome : forall i, _semantic_anchor embed paras it = Some i <->
     i < List.length scores /\ (semantic_threshold <= nth i scores 0)%Q
     /\ (forall j, j < List.length scores -> (nth j scores 0 <= nth i scores 0)%Q)
     /\ (forall j, j < i -> (nth j scores 0 < nth i scores 0)%Q)).
  { intros i. rewrite Hunf. cbv zeta.
    destruct Hres as [[E1 E2]|(j & E1 & Hjl & Hh & Hgt & Hb)].
    - rewrite E1. split; [discriminate|].
      intros (Hil & Hge & _). specialize (Hle i Hil). rewrite E2 in Hle. lra.
    - rewrite E1. simpl. destruct (Qle_bool semantic_threshold (snd r)) eqn:Ethr.
      + apply Qle_bool_iff in Ethr. split.
        * intros Hi. injection Hi as <-. rewrite Hh.
          split; [exact Hjl|]. split; [exact Ethr|]. split.
          -- exact Hle.
          -- exact Hb.
        * intros (Hil & Hge & Hmax & Hfirst). f_equal.
          destruct (Nat.lt_trichotomy i j) as [Hij|[Hij|Hij]]; auto.
          -- specialize (Hb i Hij). specialize (Hmax j Hjl). rewrite Hh in Hmax. lra.
          -- specialize (Hfirst j Hij). specialize (Hle i Hil). rewrite Hh in Hfirst. lra.
      + split; [discriminate|].
        intros (Hil & Hge & _). specialize (Hle i Hil).
        assert (Hc : (semantic_threshold <= snd r)%Q) by lra.
        apply Qle_bool_iff in Hc. congruence. }
  split; [exact Hsome|]. split; [|split; vm_compute; reflexivity].
  split.
  - intros Hn j Hj. apply Qnot_le_lt. intros Hge.
    rewrite Hunf in Hn. cbv zeta in Hn.
    specialize (Hle j Hj).
    destruct Hres as [[E1 E2]|(j0 & E1 & _ & _ & _ & _)].
    + rewrite E2 in Hle. lra.
    + rewrite E1 in Hn. simpl in Hn.
      assert (Hc : (semantic_threshold <= snd r)%Q) by lra.
      apply Qle_bool_iff in Hc. rewrite Hc in Hn. discriminate.
  - intros Hz. case_eq (_semantic_anchor embed paras it); auto. intros i E.
    apply Hsome in E as (Hil & Hge & _). specialize (Hz i Hil). lra.
Qed.

Lemma semantic_anchor_threshold_witness :
  let it := mkIssue "d" "" "Jurisdiction unclear." "High" [] None None None None None in
  nonempty (issue it) = true /\ ["p1"; "p2"] <> []
  /\ _semantic_anchor (fun _ _ => Some [1 # 10; 1 # 2]) ["p1"; "p2"] it = Some 1.
Proof.
  cbv zeta. split; [reflexivity|]. split; [discriminate|].
  apply (semantic_anchor_threshold (fun _ _ => Some [1 # 10; 1 # 2]) ["p1"; "p2"]
           (mkIssue "d" "" "Jurisdiction unclear." "High" [] None None None None None)
           [1 # 10; 1 # 2] eq_refl ltac:(discriminate) eq_refl).
  split; [simpl; lia|]. split; [unfold semantic_threshold; simpl; lra|]. split.
  - intros [|[|j]] Hj; simpl in *; try lra; lia.
  - intros [|j] Hj; simpl; [lra | lia].
Defined.

(** ** Grouping and the appendix *)

Definition flat (m : Groups) : list IssueItem := List.concat (map snd m).

Lemma setdefault_append_flat (k : nat) (it : IssueItem) (m : Groups) :
  Permutation (flat (setdefault_append k it m)) (flat m ++ [it]).
Proof.
  induction m as [|[k' l] m IH]; simpl.
  - unfold flat. simpl. rewrite ?app_nil_r. apply Permutation_refl.
  - destruct (Nat.eqb k k'); unfold flat in *; simpl.
    + rewrite <- !app_assoc. apply Permutation_app_head.
      apply Permutation_app_comm.
    + rewrite <- app_assoc. apply Permutation_app_head. exact IH.
Qed.

Lemma setdefault_append_members (resolve : IssueItem -> option nat)
    (k : nat) (it : IssueItem) (m : Groups) :
  resolve it = Some k ->
  (forall k' g x, In (k', g) m -> In x g -> resolve x = Some k') ->
  forall k' g x, In (k', g) (setdefault_append k it m) -> In x g -> resolve x = Some k'.
Proof.
  intros Hit. induction m as [|[k0 l] m IH]; simpl; intros Hm k' g x Hin Hx.
  - destruct Hin as [Heq|[]]. injection Heq as <- <-. destruct Hx as [<-|[]]. exact Hit.
  - destruct (Nat.eqb_spec k k0) as [<-|Hne].
    + destruct Hin as [Heq|Hin].
      * injection Heq as <- <-. apply in_app_or in Hx as [Hx|[<-|[]]]; auto.
        apply (Hm k l x); simpl; auto.
      * apply (Hm k' g x); simpl; auto.
    + destruct Hin as [Heq|Hin].
      * injection Heq as <- <-. apply (Hm k0 l x); simpl; auto.
      * apply (IH (fun k1 g1 x1 H1 => Hm k1 g1 x1 (or_intror H1)) k' g x Hin Hx).
Qed.

Definition is_unanchored (resolve : IssueItem -> option nat) (it : IssueItem) : bool :=
  match resolve it with None => true | Some _ => false end.

Lemma group_issues_fold (resolve : IssueItem -> option nat) (l : list IssueItem) :
  forall (m : Groups) (un : list IssueItem),
  (forall k g x, In (k, g) m -> In x g -> resolve x = Some k) ->
  let r := fold_left (place_issue resolve) l (m, un) in
  Permutation (flat (fst r) ++ snd r) (flat m ++ un ++ l)
  /\ snd r = (un ++ filter (is_unanchored resolve) l)%list
  /\ (forall k g x, In (k, g) (fst r) -> In x g -> resolve x = Some k).
Proof.
  induction l as [|it l IH]; intros m un Hm; simpl.
  - rewrite !app_nil_r. split; [apply Permutation_refl|]. split; auto.
  - unfold is_unanchored at 1. destruct (resolve it) as [k|] eqn:Hr.
    + destruct (IH (setdefault_append k it m) un
                   (setdefault_append_members resolve k it m Hr Hm))
        as (IH1 & IH2 & IH3).
      split; [|split; auto].
      eapply Permutation_trans; [exact IH1|].
      rewrite app_assoc.
      eapply Permutation_trans.
      { apply Permutation_app_tail. apply Permutation_app_tail.
        apply setdefault_append_flat. }
      rewrite <- !app_assoc. apply Permutation_app_head.
      simpl. apply Permutation_middle.
    + destruct (IH m (un ++ [it])%list Hm) as (IH1 & IH2 & IH3).
      split; [|split; auto].
      * eapply Permutation_trans; [exact IH1|]. rewrite <- !app_assoc. apply Permutation_refl.
      * rewrite IH2, <- app_assoc. reflexivity.
Qed.

(** The numbered entries of a list of blocks. *)
Fixpoint appendix_entries (bs : list Block) : list (nat * IssueItem) :=
  match bs with
  | [] => []
  | BEntry n it :: bs' => (n, it) :: appendix_entries bs'
  | _ :: bs' => appendix_entries bs'
  end.

Lemma appendix_entries_app (a b : list Block) :
  appendix_entries (a ++ b) = (appendix_entries a ++ appendix_entries b)%list.
Proof.
  induction a as [|x a IH]; simpl; auto. destruct x; simpl; rewrite ?IH; auto.
Qed.

Lemma appendix_entries_citations (evs : list IssueEvidence) :
  appendix_entries (map citation_block evs) = [].
Proof. induction evs; simpl; auto. Qed.

Lemma appendix_entries_concat (l : list (nat * IssueItem)) :
  appendix_entries (List.concat (map (fun '(n, it) => entry_blocks n it) l)) = l.
Proof.
  induction l as [|[n it] l IH]; simpl; auto.
  rewrite appendix_entries_app, IH. unfold entry_blocks. simpl.
  rewrite appendix_entries_app, appendix_entries_citations.
  destruct (suggestion it) as [s|]; [destruct (nonempty s)|]; reflexivity.
Qed.

Lemma appendix_entries_unanchored (sc : IssueEvidence -> string) (un : list IssueItem) :
  appendix_entries (unanchored_blocks sc un) = [].
Proof.
  destruct un as [|x un]; simpl; auto.
  induction un; simpl; auto.
Qed.

Lemma place_groups_appended (sc : IssueEvidence -> string) (issues : list IssueItem)
    (llm_map : list (Z * Z)) (gs : Groups) :
  forall d d1, place_groups sc issues llm_map gs d = inr d1 -> appended d1 = appended d.
Proof.
  induction gs as [|[p_idx l] gs IH]; simpl; intros d d1 H.
  - injection H as <-. reflexivity.
  - destruct l as [|first rest]; [discriminate|].
    destruct (list_index first issues) as [e|k]; [discriminate|].
    destruct (py_index _ _) as [e|t]; [discriminate|].
    apply IH in H. rewrite H. unfold _add_inline_comment. simpl.
    unfold _add_word_comment. destruct (comments d); reflexivity.
Qed.

Lemma issues_appendix_entries (sc : IssueEvidence -> string) (issues : list IssueItem) :
  appendix_entries (issues_appendix issues) = combine (seq 1 (List.length issues)) issues.
Proof.
  unfold issues_appendix. simpl.
  destruct issues as [|it l]; [reflexivity|].
  apply appendix_entries_concat.
Qed.

(** C1. In [annotate_docx], every issue lands in exactly one place: the
    paragraph groups and the unanchored list together are a permutation of
    the issues (so their sizes add up to the number of issues), the
    unanchored list is exactly the issues the cascade did not place, in
    order, and every member of the group of paragraph [k] was placed at [k].
    The consolidated appendix lists the issues in their original order,
    numbered 1, 2, ..., and a completed annotation pass appends exactly these
    entries to the document. *)
Theorem annotate_docx_coverage :
  forall (sc : IssueEvidence -> string) (env : Env) (issues : list IssueItem)
         (d : Document),
  let resolve := resolve_anchor (embed_scores env) (para_texts d) in
  let r := group_issues resolve issues in
  Permutation issues (flat (fst r) ++ snd r)
  /\ List.length (flat (fst r)) + List.length (snd r) = List.length issues
  /\ snd r = filter (is_unanchored resolve) issues
  /\ (forall k g it, In (k, g) (fst r) -> In it g -> resolve it = Some k)
  /\ appendix_entries (issues_appendix issues)
     = combine (seq 1 (List.length issues)) issues
  /\ (forall d', annotate_document sc env issues d = inr d' ->
      appendix_entries (appended d')
      = (appendix_entries (appended d) ++ combine (seq 1 (List.length issues)) issues)%list).
Proof.
  intros sc env issues d resolve r.
  destruct (group_issues_fold resolve issues [] []
              ltac:(intros k g x [])) as (H1 & H2 & H3).
  fold (group_issues resolve issues) in H1, H2, H3. fold r in H1, H2, H3.
  simpl in H1.
  assert (Hperm : Permutation issues (flat (fst r) ++ snd r))
    by (apply Permutation_sym; exact H1).
  split; [exact Hperm|].
  split; [rewrite <- length_app; symmetry; apply Permutation_length; exact Hperm|].
  split; [exact H2|]. split; [exact H3|].
  split; [apply issues_appendix_entries; exact sc|].
  intros d' Hd. unfold annotate_document in Hd. fold resolve in Hd.
  change (group_issues resolve issues) with r in Hd.
  destruct r as [groups unanchored].
  destruct (place_groups sc issues _ _ d) as [e|d1] eqn:Hp; [discriminate|].
  injection Hd as <-. simpl.
  rewrite !appendix_entries_app, appendix_entries_unanchored,
          (issues_appendix_entries sc), (place_groups_appended sc _ _ _ d d1 Hp).
  reflexivity.
Qed.

(** ** Comment ids *)

(** A paragraph [p'] is [p] with range markers of id 0 added. *)
Definition zero_ranges_added (p p' : Paragraph) : Prop :=
  exists k, range_ids p' = (range_ids p ++ repeat 0%Z k)%list.

Lemma zero_ranges_added_refl (p : Paragraph) : zero_ranges_added p p.
Proof. exists 0. rewrite app_nil_r. reflexivity. Qed.

Lemma zero_ranges_added_trans (p q r : Paragraph) :
  zero_ranges_added p q -> zero_ranges_added q r -> zero_ranges_added p r.
Proof.
  intros (k1 & H1) (k2 & H2). exists (k1 + k2).
  rewrite H2, H1, repeat_app, app_assoc. reflexivity.
Qed.

Lemma update_nth_Forall2 {A} (R : A -> A -> Prop) (f : A -> A) (i : nat) (l : list A) :
  (forall x, R x x) -> (forall x, R x (f x)) -> Forall2 R l (update_nth f i l).
Proof.
  intros Hr Hf. revert i. induction l as [|x l IH]; intros [|i]; simpl; constructor; auto.
  clear IH. induction l; constructor; auto.
Qed.

Lemma Forall2_compose_trans {A} (R : A -> A -> Prop) (l1 l2 l3 : list A) :
  (forall x y z, R x y -> R y z -> R x z) ->
  Forall2 R l1 l2 -> Forall2 R l2 l3 -> Forall2 R l1 l3.
Proof.
  intros Ht H12. revert l3. induction H12 as [|x y l1 l2 Hxy H12 IH]; intros l3 H23;
    inversion H23; subst; constructor; eauto.
Qed.

Lemma Forall2_refl_of {A} (R : A -> A -> Prop) (l : list A) :
  (forall x, R x x) -> Forall2 R l l.
Proof. intros Hr. induction l; constructor; auto. Qed.

(** Every comment added by a completed placement loop gets id 0: the store
    grows by one [w:comment] with id 0 per paragraph group, and the range
    markers put on the paragraphs carry id 0. *)
Lemma place_groups_comment_ids_zero (sc : IssueEvidence -> string)
    (issues : list IssueItem) (llm_map : list (Z * Z)) (gs : Groups) :
  forall d d' existing,
  comments d = Some existing ->
  place_groups sc issues llm_map gs d = inr d' ->
  comments d' = Some (existing ++ repeat (IdValue 0) (List.length gs))%list
  /\ Forall2 zero_ranges_added (paragraphs d) (paragraphs d').
Proof.
  induction gs as [|[p_idx l] gs IH]; simpl; intros d d' existing Hc Hp.
  - injection Hp as <-. rewrite app_nil_r. split; [exact Hc|].
    apply Forall2_refl_of, zero_ranges_added_refl.
  - destruct l as [|first rest]; [discriminate|].
    destruct (list_index first issues) as [e|k]; [discriminate|].
    destruct (py_index _ _) as [e|t]; [discriminate|].
    unfold _add_word_comment in Hp. rewrite Hc in Hp. simpl in Hp.
    apply (IH _ d' (existing ++ [IdValue 0])%list) in Hp as [Hc' Hr]; [|reflexivity].
    split.
    + rewrite Hc', <- app_assoc. reflexivity.
    + simpl in Hr. eapply Forall2_compose_trans; [exact zero_ranges_added_trans| |exact Hr].
      eapply Forall2_compose_trans; [exact zero_ranges_added_trans| |].
      2: { apply update_nth_Forall2; [exact zero_ranges_added_refl|].
           intros p. exists 0. simpl. rewrite app_nil_r. reflexivity. }
      apply update_nth_Forall2; [exact zero_ranges_added_refl|].
      intros p. exists 1. reflexivity.
Qed.

(** ** The batch refinement pass *)

Definition jurisdiction_issue : IssueItem :=
  mkIssue "Articles of Association" "" "Jurisdiction references non-ADGM courts." "High" []
          None (Some "articles.docx") None None None.

Definition one_paragraph_doc : Document :=
  mkDoc [mkPara "This Agreement shall be governed by UAE Federal Courts." [] [] false] []
        (Some []).

Definition env_with_llm (llm_out : LlmOracle) : Env :=
  mkEnv "output" (fun _ => None) "20260101-120000" "0123456789abcdef"
        (fun _ _ => None) llm_out.

(** C3 (defect).  The paragraph index proposed by the language model is used
    without a range check: on a one-paragraph document whose single issue the
    keyword strategy anchors at paragraph 0, a model answer mapping that
    issue to paragraph 5 makes [doc.paragraphs[5]] raise [IndexError], which
    escapes [annotate_docx] before any group is annotated and before the file
    is written; without the model the same run completes. *)
Theorem llm_refinement_unchecked_index :
  let issues := [jurisdiction_issue] in
  let paras := para_texts one_paragraph_doc in
  let llm_out : LlmOracle := Some (Some [LDict (Some 0%Z) (Some 5%Z)]) in
  group_issues (resolve_anchor (fun _ _ => None) paras) issues = ([(0, issues)], [])
  /\ _llm_anchor_map llm_out paras issues = [(0%Z, 5%Z)]
  /\ annotate_document (fun _ => "") (env_with_llm llm_out) issues one_paragraph_doc
     = inl IndexError
  /\ annotate_docx (fun _ => "") (env_with_llm llm_out) "uploads/articles.docx" issues
       one_paragraph_doc [] = ([], inl IndexError)
  /\ (exists d', annotate_document (fun _ => "") (env_with_llm None) issues one_paragraph_doc
                 = inr d').
Proof.
  cbv zeta. split; [vm_compute; reflexivity|].
  split; [vm_compute; reflexivity|].
  split; [vm_compute; reflexivity|].
  split; [vm_compute; reflexivity|].
  eexists. vm_compute. reflexivity.
Qed.

(** C2 (defect).  [_add_word_comment] never allocates a fresh id: its lookup
    of the existing comments raises [TypeError] (python-docx's [xpath] takes
    no [namespaces] keyword) and the [except] branch gives every comment the
    id 0.  On a two-paragraph document whose comment store already holds the
    id 3, an annotation pass that anchors two issues at different paragraphs
    adds two comments with the same id 0, and both paragraphs get range
    markers with id 0: the ids of one pass are neither pairwise distinct nor
    greater than the pre-existing id. *)
Theorem comment_ids_always_zero :
  (forall existing, next_comment_id existing = 0%Z)
  /\ exists d', annotate_document ref_id sample_env [sample_issue; address_issue] two_group_doc
                = inr d'
     /\ comments d' = Some [IdValue 3%Z; IdValue 0%Z; IdValue 0%Z]
     /\ map range_ids (paragraphs d') = [[0%Z]; [0%Z]].
Proof.
  split; [reflexivity|].
  eexists. split; [vm_compute; reflexivity|]. split; vm_compute; reflexivity.
Qed.

(** ** Citation accumulation *)

Definition fresh_ref (used_refs : list string) (h : Hit) : bool :=
  nonempty (hit_ref_id h) && negb (existsb (String.eqb (hit_ref_id h)) used_refs).

Lemma existsb_string_eqb (s : string) (l : list string) :
  existsb (String.eqb s) l = true <-> In s l.
Proof.
  rewrite existsb_exists. split.
  - intros (x & Hx & E). apply String.eqb_eq in E. subst. exact Hx.
  - intros Hs. exists s. split; auto. apply String.eqb_refl.
Qed.

Lemma fresh_ref_false (used_refs : list string) (h : Hit) :
  fresh_ref used_refs h = false <-> hit_ref_id h = "" \/ In (hit_ref_id h) used_refs.
Proof.
  unfold fresh_ref. rewrite <- existsb_string_eqb.
  destruct (hit_ref_id h) as [|c s] eqn:E; simpl.
  - split; auto.
  - destruct (existsb _ used_refs); simpl; split; intuition discriminate.
Qed.

Lemma NoDup_snoc {A} (l : list A) (x : A) : NoDup l -> ~ In x l -> NoDup (l ++ [x])%list.
Proof.
  intros Hl Hx. apply NoDup_app; auto.
  - constructor; [intros []|constructor].
  - intros y Hy [<-|[]]. contradiction.
Qed.

(** C4, refuted.  When every retrieval call of a document returns the same
    single chunk, the heuristic pass attaches that chunk's refId to all three
    of its issues. *)
Lemma cite_repeats_ref_on_overlap :
  let h := mkHit 1 "Article 6: ADGM Courts have jurisdiction." "companies_regs.txt#chunk-0"
                 "refs/companies_regs.txt" "Companies Regulations" None in
  map (fun it => map ref_id (evidence it))
      (fst (_heuristic_issues (fun _ => [h]) "contract.docx" "Contract"
              "This contract is subject to federal law."))
  = [["companies_regs.txt#chunk-0"]; ["companies_regs.txt#chunk-0"];
     ["companies_regs.txt#chunk-0"]].
Proof. vm_compute. reflexivity. Qed.

(** C4, as the code does it.  One [cite] call attaches at most one evidence
    item: no hit gives none; otherwise, when some hit has a non-empty refId
    not used yet, a hit with such a refId is attached and its refId is
    recorded; when every hit's refId is empty or already used, the first hit
    is attached again without being recorded.  The recorded refIds stay
    pairwise distinct, in particular over the whole heuristic pass of a
    document. *)
Theorem cite_records_distinct_refs :
  (forall (search_fn : string -> list Hit) (used_refs : list string) (query : string),
   let r := cite search_fn used_refs query in
   (NoDup used_refs -> NoDup (snd r))
   /\ ((search_fn query = [] /\ fst r = [] /\ snd r = used_refs)
       \/ (exists h, In h (search_fn query) /\ fst r = [evidence_of_hit h]
           /\ hit_ref_id h <> "" /\ ~ In (hit_ref_id h) used_refs
           /\ snd r = (used_refs ++ [hit_ref_id h])%list)
       \/ (exists h rest, search_fn query = h :: rest /\ fst r = [evidence_of_hit h]
           /\ snd r = used_refs
           /\ Forall (fun h' => hit_ref_id h' = "" \/ In (hit_ref_id h') used_refs)
                     (search_fn query))))
  /\ (forall (search_fn : string -> list Hit) (file_name display_name text : string),
      NoDup (snd (_heuristic_issues search_fn file_name display_name text))).
Proof.
  assert (Hstep : forall (search_fn : string -> list Hit) (used_refs : list string)
                         (query : string),
   let r := cite search_fn used_refs query in
   (NoDup used_refs -> NoDup (snd r))
   /\ ((search_fn query = [] /\ fst r = [] /\ snd r = used_refs)
       \/ (exists h, In h (search_fn query) /\ fst r = [evidence_of_hit h]
           /\ hit_ref_id h <> "" /\ ~ In (hit_ref_id h) used_refs
           /\ snd r = (used_refs ++ [hit_ref_id h])%list)
       \/ (exists h rest, search_fn query = h :: rest /\ fst r = [evidence_of_hit h]
           /\ snd r = used_refs
           /\ Forall (fun h' => hit_ref_id h' = "" \/ In (hit_ref_id h') used_refs)
                     (search_fn query)))).
  { intros search_fn used_refs query. cbv zeta. unfold cite.
    change (fun h => nonempty (hit_ref_id h)
                     && negb (existsb (String.eqb (hit_ref_id h)) used_refs))
      with (fresh_ref used_refs).
    destruct (find (fresh_ref used_refs) (search_fn query)) as [h|] eqn:Ef.
    - apply find_some in Ef as [Hin Hf].
      unfold fresh_ref in Hf. apply andb_true_iff in Hf as [Hne Hnu].
      apply negb_true_iff in Hnu.
      assert (Hnin : ~ In (hit_ref_id h) used_refs).
      { intros Hi. apply existsb_string_eqb in Hi. congruence. }
      simpl. split.
      + intros Hnd. apply NoDup_snoc; auto.
      + right. left. exists h. repeat split; auto. apply nonempty_true. exact Hne.
    - pose proof (find_none _ _ Ef) as Hall.
      destruct (search_fn query) as [|h rest] eqn:Es; simpl.
      + split; auto.
      + split; auto. right. right. exists h, rest. repeat split; auto.
        apply Forall_forall. intros x Hx. apply fresh_ref_false. apply Hall. exact Hx. }
  split; [exact Hstep|].
  intros search_fn file_name display_name text.
  assert (Hnd : forall u q, NoDup u -> NoDup (snd (cite search_fn u q))).
  { intros u q Hu. apply (Hstep search_fn u q). exact Hu. }
  unfold _heuristic_issues.
  destruct (_ || _ || _ || _).
  - destruct (cite search_fn [] q_jurisdiction) as [ev1 u1] eqn:E1.
    assert (H1 : NoDup u1).
    { change u1 with (snd (ev1, u1)). rewrite <- E1. apply Hnd. constructor. }
    destruct (negb _ && negb _); [destruct (cite search_fn u1 q_signature) as [ev2 u2] eqn:E2|].
    + assert (H2 : NoDup u2).
      { change u2 with (snd (ev2, u2)). rewrite <- E2. apply Hnd. exact H1. }
      destruct (negb _); [destruct (cite search_fn u2 q_adgm) as [ev3 u3] eqn:E3|]; simpl; auto.
      change u3 with (snd (ev3, u3)). rewrite <- E3. apply Hnd. exact H2.
    + destruct (negb _); [destruct (cite search_fn u1 q_adgm) as [ev3 u3] eqn:E3|]; simpl; auto.
      change u3 with (snd (ev3, u3)). rewrite <- E3. apply Hnd. exact H1.
  - assert (H1 : NoDup (@nil string)) by constructor.
    destruct (negb _ && negb _); [destruct (cite search_fn [] q_signature) as [ev2 u2] eqn:E2|].
    + assert (H2 : NoDup u2).
      { change u2 with (snd (ev2, u2)). rewrite <- E2. apply Hnd. exact H1. }
      destruct (negb _); [destruct (cite search_fn u2 q_adgm) as [ev3 u3] eqn:E3|]; simpl; auto.
      change u3 with (snd (ev3, u3)). rewrite <- E3. apply Hnd. exact H2.
    + destruct (negb _); [destruct (cite search_fn [] q_adgm) as [ev3 u3] eqn:E3|]; simpl; auto.
      change u3 with (snd (ev3, u3)). rewrite <- E3. apply Hnd. exact H1.
Qed.

(** ** Persistence *)

Lemma string_app_assoc (a b c : string) : (a ++ b) ++ c = a ++ b ++ c.
Proof. induction a as [|x a IH]; simpl; congruence. Qed.

Lemma string_length_app (a b : string) :
  String.length (a ++ b) = String.length a + String.length b.
Proof. induction a as [|x a IH]; simpl; auto. Qed.

Lemma prefix_app (n b : string) : prefix n (n ++ b) = true.
Proof.
  induction n as [|x n IH]; simpl; [destruct b; reflexivity|].
  destruct (ascii_dec x x) as [_|Hne]; [exact IH|congruence].
Qed.

Lemma contains_cons (n : string) (x : ascii) (s : string) :
  contains n (String x s) = prefix n (String x s) || contains n s.
Proof. reflexivity. Qed.

Lemma contains_app_l (n a hay : string) : contains n hay = true -> contains n (a ++ hay) = true.
Proof.
  induction a as [|x a IH]; intros H; [exact H|].
  change (String x a ++ hay) with (String x (a ++ hay)).
  rewrite contains_cons, IH; auto. apply orb_true_r.
Qed.

Lemma contains_middle (n a b : string) : contains n (a ++ n ++ b) = true.
Proof.
  apply contains_app_l. destruct n as [|x n].
  - destruct b; reflexivity.
  - pose proof (prefix_app (String x n) b) as Hp.
    change (String x n ++ b) with (String x (n ++ b)) in *.
    rewrite contains_cons, Hp. reflexivity.
Qed.

Lemma path_join_contains (n a b : string) :
  contains n b = true -> contains n (path_join a b) = true.
Proof.
  intros H. unfold path_join. destruct a as [|x a]; auto.
  destruct (get _ _) as [c|]; [destruct c as [[] [] [] [] [] [] [] []]|];
    try (apply contains_app_l; exact H);
    rewrite <- string_app_assoc; apply contains_app_l; exact H.
Qed.

Lemma path_join_length (a b : string) :
  exists k, forall b', String.length (path_join a b') = k + String.length b'.
Proof.
  unfold path_join. destruct a as [|x a].
  - exists 0. reflexivity.
  - destruct (get _ _) as [c|];
      [destruct c as [[] [] [] [] [] [] [] []]|];
      solve [ exists (String.length (String x a)); intros b'; apply string_length_app
            | exists (String.length (String x a) + 1); intros b';
              rewrite string_length_app; simpl; lia ].
Qed.

(** The two output paths of [annotate_docx]. *)
Definition reviewed_path (env : Env) (original_path : string) : string :=
  let '(name, ext) := splitext (basename original_path) in
  path_join (output_dir env) (name ++ "_reviewed" ++ ext).

Definition retry_path (env : Env) (original_path : string) : string :=
  let '(name, ext) := splitext (basename original_path) in
  path_join (output_dir env)
            (name ++ "_reviewed_" ++ (now_stamp env ++ "-" ++ take 6 (uuid_hex env)) ++ ext).

(** C8. [annotate_docx] first saves to [<output_dir>/<name>_reviewed<ext>].
    If that save succeeds, that path is returned.  If it raises
    [PermissionError], exactly one more save is attempted, under
    [<name>_reviewed_<timestamp>-<6 hex chars of a uuid><ext>], a different
    path containing the timestamp and the random suffix: its success returns
    that path, its failure propagates the error.  Any other error of the
    first save propagates at once.  At most two saves are attempted, and a
    returned path is the path of the last, successful save. *)
Theorem write_output_single_retry :
  forall (env : Env) (original_path : string) (log : list string),
  let out1 := reviewed_path env original_path in
  let out2 := retry_path env original_path in
  let r := write_output env original_path log in
  (save_outcome env out1 = None -> r = ((log ++ [out1])%list, inr out1))
  /\ (save_outcome env out1 = Some PermissionError ->
      (save_outcome env out2 = None -> r = ((log ++ [out1; out2])%list, inr out2))
      /\ (forall e, save_outcome env out2 = Some e -> r = ((log ++ [out1; out2])%list, inl e)))
  /\ (forall e, save_outcome env out1 = Some e -> e <> PermissionError ->
      r = ((log ++ [out1])%list, inl e))
  /\ List.length (fst r) <= List.length log + 2
  /\ (forall p, snd r = inr p -> save_outcome env p = None /\ last (fst r) "" = p)
  /\ out1 <> out2
  /\ contains (now_stamp env) out2 = true
  /\ contains (take 6 (uuid_hex env)) out2 = true.
Proof.
  intros env original_path log out1 out2 r.
  unfold r, out1, out2, write_output, reviewed_path, retry_path.
  destruct (splitext (basename original_path)) as [name ext].
  set (o1 := path_join (output_dir env) (name ++ "_reviewed" ++ ext)).
  set (o2 := path_join (output_dir env)
               (name ++ "_reviewed_" ++ (now_stamp env ++ "-" ++ take 6 (uuid_hex env)) ++ ext)).
  assert (Hne : o1 <> o2).
  { intros E. destruct (path_join_length (output_dir env) EmptyString) as [k Hk].
    apply (f_equal String.length) in E. unfold o1, o2 in E. rewrite !Hk in E.
    repeat rewrite string_length_app in E. simpl in E.
    repeat rewrite string_length_app in E. lia. }
  assert (Hstamp : contains (now_stamp env) o2 = true).
  { apply path_join_contains. rewrite string_app_assoc.
    replace ("_reviewed_" ++ (now_stamp env ++ "-" ++ take 6 (uuid_hex env)) ++ ext)
      with ("_reviewed_" ++ now_stamp env ++ ("-" ++ take 6 (uuid_hex env) ++ ext))
      by (rewrite string_app_assoc; reflexivity).
    rewrite <- string_app_assoc. apply contains_middle. }
  assert (Huuid : contains (take 6 (uuid_hex env)) o2 = true).
  { apply path_join_contains.
    replace (name ++ "_reviewed_" ++ (now_stamp env ++ "-" ++ take 6 (uuid_hex env)) ++ ext)
      with ((name ++ "_reviewed_" ++ now_stamp env ++ "-") ++ take 6 (uuid_hex env) ++ ext)
      by (rewrite !string_app_assoc; reflexivity).
    apply contains_middle. }
  unfold save.
  destruct (save_outcome env o1) as [e1|] eqn:E1.
  - assert (Hc : e1 = PermissionError \/ e1 <> PermissionError)
      by (destruct e1; auto; right; discriminate).
    destruct Hc as [->|Hpe].
    + destruct (save_outcome env o2) as [e2|] eqn:E2; simpl.
      * split; [discriminate|]. split.
        { intros _. split; [discriminate|]. intros e He. injection He as <-.
          rewrite <- app_assoc. reflexivity. }
        split; [intros e He Hp; injection He as <-; congruence|].
        split; [rewrite !length_app; simpl; lia|].
        split; [intros p Hp; discriminate|]. auto.
      * split; [discriminate|]. split.
        { intros _. split; [intros _; rewrite <- app_assoc; reflexivity|]. discriminate. }
        split; [intros e He Hp; injection He as <-; congruence|].
        split; [rewrite !length_app; simpl; lia|].
        split; [|auto]. intros p Hp. injection Hp as <-. split; auto.
        apply last_last.
    + destruct e1; try (exfalso; apply Hpe; reflexivity); simpl;
        (split; [discriminate|]; split; [intros He; injection He as He; congruence|];
         split; [intros e He _; injection He as <-; reflexivity|];
         rewrite length_app; simpl; split; [lia|];
         split; [intros p Hp; discriminate|auto]).
  - simpl. split; [reflexivity|]. split; [discriminate|].
    split; [intros e He; discriminate|].
    rewrite length_app. simpl. split; [lia|].
    split; [|auto]. intros p Hp. injection Hp as <-. split; auto. apply last_last.
Qed.

(** *** Retriever construction and search *)

Lemma py_index_error (n : nat) (i : Z) (e : Exn) :
  py_index n i = inl e -> e = IndexError.
Proof.
  unfold py_index.
  destruct ((0 <=? i) && (i <? Z.of_nat n))%Z; [discriminate|].
  destruct ((- Z.of_nat n <=? i) && (i <? 0))%Z; [discriminate|].
  congruence.
Qed.

Lemma make_hit_error (s : Q) (c : string) (m : ChunkMeta) (e : Exn) :
  make_hit s c m = inl e -> e = KeyError.
Proof.
  unfold make_hit. destruct (source_path m), (chunk_index m); congruence.
Qed.

Lemma search_results_not_unavailable (cs : list string) (ms : list ChunkMeta)
    (row : list (Q * Z)) :
  search_results cs ms row <> inl IndexUnavailable.
Proof.
  induction row as [|[s i] row IH]; simpl; [discriminate|].
  destruct (Z.eqb i (-1)); [exact IH|].
  destruct (py_index (List.length cs) i) as [e|a] eqn:Ea.
  { apply py_index_error in Ea. subst. discriminate. }
  destruct (py_index (List.length ms) i) as [e|b] eqn:Eb.
  { apply py_index_error in Eb. subst. discriminate. }
  destruct (make_hit s (nth a cs "") (nth b ms (mkMeta None None None None)))
    as [e|h] eqn:Eh.
  { apply make_hit_error in Eh. subst. discriminate. }
  destruct (search_results cs ms row); [exact IH|discriminate].
Qed.

Lemma py_index_in_range (n : nat) (i : Z) :
  (0 <= i < Z.of_nat n)%Z -> py_index n i = inr (Z.to_nat i).
Proof.
  intros Hi. unfold py_index.
  replace ((0 <=? i) && (i <? Z.of_nat n))%Z with true; [reflexivity|].
  symmetry. apply andb_true_intro. split; [apply Z.leb_le | apply Z.ltb_lt]; lia.
Qed.

Lemma search_results_ok (cs : list string) (ms : list ChunkMeta)
    (row : list (Q * Z)) :
  Forall (fun p => snd p = (-1)%Z
                   \/ (0 <= snd p < Z.of_nat (List.length cs)
                       /\ snd p < Z.of_nat (List.length ms))%Z) row ->
  Forall (fun m => source_path m <> None /\ chunk_index m <> None) ms ->
  exists hits, search_results cs ms row = inr hits
               /\ Forall2 (hit_from_entry cs ms) hits (filter not_padding row).
Proof.
  intros Hrow Hms. induction row as [|[s i] row IH]; simpl.
  - exists []. split; [reflexivity | constructor].
  - inversion Hrow as [|x l Hi Hrest]; subst. simpl in Hi.
    destruct (IH Hrest) as (hits & Ehits & Hrel).
    unfold not_padding at 1. simpl.
    destruct (Z.eqb i (-1)) eqn:Epad; simpl.
    + exists hits. split; assumption.
    + apply Z.eqb_neq in Epad.
      destruct Hi as [Hi|(Hc & Hm)]; [contradiction|].
      rewrite (py_index_in_range _ _ Hc), (py_index_in_range (List.length ms) i)
        by lia.
      set (m := nth (Z.to_nat i) ms (mkMeta None None None None)).
      assert (Hin : In m ms) by (apply nth_In; lia).
      rewrite Forall_forall in Hms. destruct (Hms m Hin) as [Hsp Hci].
      unfold make_hit at 1.
      destruct (source_path m) as [sp|] eqn:Esp; [|contradiction].
      destruct (chunk_index m) as [ci|] eqn:Eci; [|contradiction].
      rewrite Ehits.
      eexists. split; [reflexivity|]. constructor; [|exact Hrel].
      unfold hit_from_entry. simpl. split; [exact Epad|]. split.
      { apply nth_error_nth'. lia. }
      exists m. split; [apply nth_error_nth'; lia|].
      unfold make_hit. rewrite Esp, Eci. reflexivity.
Qed.

(** C9: constructing the retriever raises the index-unavailable error exactly
    when [index.faiss] or [chunks.json] is absent (in particular when the
    corpus was never built); a corpus with all its files constructs a
    retriever; [meta.json] alone missing raises [FileNotFoundError] instead;
    [search] never raises the index-unavailable error; and [check_compliance]
    propagates a construction error unchanged. *)
Theorem retriever_init_index_unavailable :
  (forall (fs : CorpusFiles) (k : nat),
     FaissRetriever_init fs k = inl IndexUnavailable
     <-> (index_faiss fs = None \/ chunks_json fs = None))
  /\ (forall k : nat, FaissRetriever_init (mkCorpus None None None) k = inl IndexUnavailable)
  /\ (forall ix cs ms (k : nat),
        FaissRetriever_init (mkCorpus (Some ix) (Some cs) (Some ms)) k
        = inr (mkRetriever ix cs ms k))
  /\ (forall ix cs (k : nat),
        FaissRetriever_init (mkCorpus (Some ix) (Some cs) None) k = inl FileNotFoundError)
  /\ (forall embed_query (r : FaissRetriever) (query : string),
        search embed_query r query <> inl IndexUnavailable)
  /\ (forall (fs : CorpusFiles) rest (e : Exn),
        FaissRetriever_init fs 4 = inl e -> check_compliance fs rest = inl e).
Proof.
  split; [|split; [|split; [|split; [|split]]]].
  - intros [[ix|] [cs|] [ms|]] k; unfold FaissRetriever_init; simpl;
      split; intros H; try discriminate; try reflexivity; auto;
      destruct H as [H|H]; discriminate.
  - reflexivity.
  - reflexivity.
  - reflexivity.
  - intros embed_query r query. unfold search.
    destruct (embed_query query); [apply search_results_not_unavailable | discriminate].
  - intros fs rest e H. unfold check_compliance. rewrite H. reflexivity.
Qed.

(** C10: under FAISS's contract for [index.search] (a row of [top_k]
    entries, each id either the padding [-1] or a position of the indexed
    chunks, which [meta.json] parallels) and with every metadata entry
    carrying [source_path] and [chunk_index] (as the indexer writes them),
    [search] succeeds with at most [top_k] results, one per non-padding entry
    in order, the padding entries skipped, and each result's chunk and
    metadata read at the same offset. *)
Theorem search_skips_padding (embed_query : string -> option (list Q))
    (r : FaissRetriever) (query : string) (q_vec : list Q) :
  embed_query query = Some q_vec ->
  List.length (index r q_vec (top_k r)) = top_k r ->
  Forall (fun p => snd p = (-1)%Z
                   \/ (0 <= snd p < Z.of_nat (List.length (chunks r))
                       /\ snd p < Z.of_nat (List.length (meta r)))%Z)
         (index r q_vec (top_k r)) ->
  Forall (fun m => source_path m <> None /\ chunk_index m <> None) (meta r) ->
  exists hits, search embed_query r query = inr hits
    /\ List.length hits <= top_k r
    /\ List.length hits = List.length (filter not_padding (index r q_vec (top_k r)))
    /\ Forall2 (hit_from_entry (chunks r) (meta r)) hits
               (filter not_padding (index r q_vec (top_k r))).
Proof.
  intros Hq Hlen Hrow Hms.
  destruct (search_results_ok _ _ _ Hrow Hms) as (hits & Ehits & Hrel).
  exists hits. unfold search. rewrite Hq, Ehits.
  split; [reflexivity|].
  assert (Hl : List.length hits = List.length (filter not_padding (index r q_vec (top_k r))))
    by (apply (Forall2_length Hrel)).
  split; [|split; [exact Hl | exact Hrel]].
  rewrite Hl. rewrite <- Hlen at 2. apply filter_length_le.
Qed.

Lemma search_skips_padding_witness :
  exists hits,
    search (fun _ => Some [])
      (mkRetriever (fun _ _ => [(1#2, 0%Z); (0%Q, (-1)%Z)]) ["ADGM Courts"]
         [mkMeta (Some "refs/companies_regs.txt") (Some 0%Z) None None] 2) "jurisdiction"
    = inr hits
    /\ List.length hits <= 2
    /\ List.length hits = 1
    /\ Forall2 (hit_from_entry ["ADGM Courts"]
                  [mkMeta (Some "refs/companies_regs.txt") (Some 0%Z) None None])
               hits [(1#2, 0%Z)].
Proof.
  apply (search_skips_padding (fun _ => Some [])
           (mkRetriever (fun _ _ => [(1#2, 0%Z); (0%Q, (-1)%Z)]) ["ADGM Courts"]
              [mkMeta (Some "refs/companies_regs.txt") (Some 0%Z) None None] 2)
           "jurisdiction" []).
  - reflexivity.
  - reflexivity.
  - simpl. apply Forall_cons; [right; simpl; lia|].
    apply Forall_cons; [left; reflexivity | apply Forall_nil].
  - apply Forall_cons; [split; discriminate | apply Forall_nil].
Defined.

(** * Further properties of the code *)

Open Scope nat_scope.
Open Scope string_scope.

Lemma lower_char_idem (c : ascii) : lower_char (lower_char c) = lower_char c.
Proof.
  unfold lower_char. cbv zeta.
  destruct ((65 <=? nat_of_ascii c) && (nat_of_ascii c <=? 90))%nat eqn:E.
  - apply andb_true_iff in E as [E1 E2]. apply Nat.leb_le in E1, E2.
    rewrite nat_ascii_embedding by lia.
    replace ((65 <=? nat_of_ascii c + 32) && (nat_of_ascii c + 32 <=? 90))%nat with false.
    + reflexivity.
    + symmetry. apply andb_false_iff. right. apply Nat.leb_gt. lia.
  - rewrite E. reflexivity.
Qed.

Lemma lower_idem (s : string) : lower (lower s) = lower s.
Proof. induction s as [|c s IH]; simpl; [reflexivity|]. rewrite lower_char_idem, IH. reflexivity. Qed.

Lemma take_length_le (n : nat) (s : string) : String.length (take n s) <= n.
Proof.
  unfold take. revert n. induction s as [|c s IH]; intros [|n]; simpl; try lia.
  specialize (IH n). lia.
Qed.

Lemma cite_evidence (sf : string -> list Hit) (u : list string) (q : string) :
  List.length (fst (cite sf u q)) <= 1
  /\ Forall (fun e => String.length (snippet e) <= 400) (fst (cite sf u q)).
Proof.
  unfold cite. destruct (find _ _) as [h|].
  - simpl. split; [lia|]. constructor; [apply take_length_le | constructor].
  - destruct (sf q) as [|h hs]; simpl.
    + split; [lia | constructor].
    + split; [lia|]. constructor; [apply take_length_le | constructor].
Qed.

Lemma cite_ext (sf : string -> list Hit) (hits : list Hit) (u : list string) (q : string) :
  sf q = hits -> cite sf u q = cite (fun _ => hits) u q.
Proof. intros H. unfold cite. rewrite H. reflexivity. Qed.

Ltac heur_step :=
  match goal with
  | |- context[cite ?s ?u ?q] =>
      let C := fresh "C" in let H := fresh "Hev" in
      let ev := fresh "ev" in let us := fresh "used" in
      pose proof (cite_evidence s u q) as H;
      destruct (cite s u q) as [ev us] eqn:C; simpl in H; destruct H
  | |- context[if ?c then _ else _] => let E := fresh "E" in destruct c eqn:E
  end.

Lemma heuristic_issues_shape (sf : string -> list Hit) (f d t : string) :
  let l := fst (_heuristic_issues sf f d t) in
  let lt := lower t in
  map issue l =
    ((if contains "jurisdiction" lt || contains "federal" lt
         || contains "uae courts" lt || contains "abu dhabi courts" lt
      then ["Jurisdiction references non-ADGM courts."] else [])
     ++ (if negb (contains "signature" lt) && negb (contains "signed" lt)
         then ["Missing explicit signatory section."] else [])
     ++ (if negb (contains "adgm" lt)
         then ["Document does not explicitly reference ADGM."] else []))%list
  /\ Forall (heuristic_issue_ok f d) l.
Proof.
  cbv zeta. unfold _heuristic_issues.
  repeat (heur_step; simpl);
  (split; [reflexivity|]);
  repeat (apply Forall_cons || apply Forall_nil);
  unfold heuristic_issue_ok; simpl; repeat split; auto;
  first [left; split; reflexivity | right; left; split; reflexivity
        | right; right; split; reflexivity].
Qed.

Lemma heuristic_r_ok (retr_q : string -> Result (list Hit)) (f d t : string)
    (l : list IssueItem) :
  _heuristic_issues_r retr_q f d t = inr l ->
  l = fst (_heuristic_issues (fun q => match retr_q q with inr h => h | inl _ => [] end) f d t).
Proof.
  unfold _heuristic_issues_r, cite_r, _heuristic_issues.
  remember (fun q => match retr_q q with inr h => h | inl _ => [] end) as sf eqn:Hsf.
  repeat (simpl; first
    [ match goal with |- context[cite sf ?u ?q] =>
        rewrite (cite_ext sf (match retr_q q with inr h => h | inl _ => [] end) u q)
          by (rewrite Hsf; reflexivity) end
    | match goal with |- context[retr_q ?q] => destruct (retr_q q) eqn:? end
    | match goal with |- context[cite (fun _ => ?h) ?u ?q] =>
        destruct (cite (fun _ => h) u q) eqn:? end
    | match goal with |- context[if ?c then _ else _] => destruct c eqn:? end ]).
  all: intros H; try discriminate; injection H as <-;
    repeat match goal with E : inr _ = inr _ |- _ => injection E as E; subst end;
    repeat match goal with E1 : ?x = (_, _), E2 : ?x = (_, _) |- _ =>
                             rewrite E1 in E2; injection E2 as <- <- end;
    reflexivity.
Qed.

(** X1.  [_heuristic_issues] only looks at [text.lower()]: lower-casing the
    text first changes nothing, with or without a retriever that raises. *)
Theorem heuristic_issues_case_insensitive (sf : string -> list Hit)
    (retr_q : string -> Result (list Hit)) (f d t : string) :
  _heuristic_issues sf f d (lower t) = _heuristic_issues sf f d t
  /\ _heuristic_issues_r retr_q f d (lower t) = _heuristic_issues_r retr_q f d t.
Proof. unfold _heuristic_issues, _heuristic_issues_r. rewrite lower_idem. split; reflexivity. Qed.

Lemma heuristic_empty_conditions (sf : string -> list Hit) (f d t : string) :
  fst (_heuristic_issues sf f d t) = []
  <-> (contains "jurisdiction" (lower t) || contains "federal" (lower t)
       || contains "uae courts" (lower t) || contains "abu dhabi courts" (lower t)) = false
      /\ (contains "signature" (lower t) || contains "signed" (lower t)) = true
      /\ contains "adgm" (lower t) = true.
Proof.
  destruct (heuristic_issues_shape sf f d t) as [Hm _]. cbv zeta in Hm.
  remember (fst (_heuristic_issues sf f d t)) as l eqn:El. clear El.
  revert Hm.
  destruct (contains "jurisdiction" (lower t) || contains "federal" (lower t)
            || contains "uae courts" (lower t) || contains "abu dhabi courts" (lower t));
  destruct (contains "signature" (lower t)); destruct (contains "signed" (lower t));
  destruct (contains "adgm" (lower t)); simpl; intros Hm; split; intros H.
  all: try (subst l; simpl in Hm; discriminate).
  all: try (repeat split; reflexivity).
  all: try (destruct H as (H1 & H2 & H3); discriminate).
  all: apply map_eq_nil with (f := issue); exact Hm.
Qed.

Lemma heuristic_issues_bounds (sf : string -> list Hit) (f d t : string) :
  let l := fst (_heuristic_issues sf f d t) in
  List.length l <= 3 /\ NoDup (map issue l) /\ Forall (heuristic_issue_ok f d) l.
Proof.
  destruct (heuristic_issues_shape sf f d t) as [Hm Hf]. cbv zeta in *.
  remember (fst (_heuristic_issues sf f d t)) as l eqn:El. clear El.
  split; [|split; [|exact Hf]].
  - rewrite <- (length_map issue l), Hm.
    destruct (_ || _); destruct (_ && _); destruct (negb _); simpl; lia.
  - rewrite Hm.
    destruct (_ || _); destruct (_ && _); destruct (negb _); simpl;
      repeat constructor; simpl; intuition discriminate.
Qed.

Lemma dedup_hits_inv (hits : list Hit) : forall seen ctx,
  seen = map hit_ref_id ctx -> NoDup seen ->
  Forall (fun h => nonempty (hit_ref_id h) = true) ctx -> List.length ctx < 6 ->
  let r := dedup_hits seen ctx hits in
  List.length r <= 6 /\ NoDup (map hit_ref_id r)
  /\ Forall (fun h => nonempty (hit_ref_id h) = true) r
  /\ (exists s, r = ctx ++ s /\ incl s hits)%list
  /\ (List.length r < 6 -> forall h, In h hits -> nonempty (hit_ref_id h) = true ->
        In (hit_ref_id h) (map hit_ref_id r)).
Proof.
  induction hits as [|h hs IH]; intros seen ctx Hs Hnd Hne Hlen; cbv zeta; cbn [dedup_hits].
  - subst seen. split; [lia|]. split; [exact Hnd|]. split; [exact Hne|].
    split; [exists []; rewrite app_nil_r; split; [reflexivity | intros x []]|].
    intros _ h [].
  - destruct (nonempty (hit_ref_id h) && negb (existsb (String.eqb (hit_ref_id h)) seen)) eqn:Ec.
    + apply andb_true_iff in Ec as [Ec1 Ec2]. apply negb_true_iff in Ec2.
      assert (Hni : ~ In (hit_ref_id h) seen).
      { intros Hin. assert (existsb (String.eqb (hit_ref_id h)) seen = true) as Ht.
        { apply existsb_exists. exists (hit_ref_id h). split; [exact Hin | apply String.eqb_refl]. }
        congruence. }
      assert (Hs' : (seen ++ [hit_ref_id h])%list = map hit_ref_id (ctx ++ [h])%list)
        by (rewrite map_app; subst; reflexivity).
      assert (Hnd' : NoDup (seen ++ [hit_ref_id h])%list).
      { apply NoDup_app; [exact Hnd | constructor; [intros [] | constructor] |].
        intros x Hx [<-|[]]. contradiction. }
      assert (Hne' : Forall (fun h => nonempty (hit_ref_id h) = true) (ctx ++ [h])%list)
        by (apply Forall_app; split; [exact Hne | constructor; [exact Ec1 | constructor]]).
      replace (List.length (ctx ++ [h])%list) with (List.length ctx + 1)
        by (rewrite length_app; reflexivity).
      destruct (Nat.leb 6 (List.length ctx + 1)) eqn:El.
      * apply Nat.leb_le in El.
        split; [rewrite length_app; simpl; lia|].
        split; [rewrite <- Hs'; exact Hnd'|]. split; [exact Hne'|].
        split; [exists [h]; split; [reflexivity | intros x [<-|[]]; left; reflexivity]|].
        intros Hl. rewrite length_app in Hl. simpl in Hl. lia.
      * apply Nat.leb_gt in El.
        destruct (IH _ _ Hs' Hnd' Hne' ltac:(rewrite length_app; simpl; lia))
          as (H1 & H2 & H3 & (s & Hr & Hinc) & H5).
        split; [exact H1|]. split; [exact H2|]. split; [exact H3|].
        split.
        { exists (h :: s). split; [rewrite Hr, <- app_assoc; reflexivity|].
          intros x [<-|Hx]; [left; reflexivity | right; apply Hinc, Hx]. }
        intros Hl h' [<-|Hin] Hne''.
        -- rewrite Hr, !map_app. apply in_or_app. left. apply in_or_app. right. left. reflexivity.
        -- exact (H5 Hl h' Hin Hne'').
    + cbv beta iota.
      destruct (Nat.leb 6 (List.length ctx)) eqn:El; [apply Nat.leb_le in El; lia|].
      cbv beta iota.
      destruct (IH _ _ Hs Hnd Hne Hlen) as (H1 & H2 & H3 & (s & Hr & Hinc) & H5).
      split; [exact H1|]. split; [exact H2|]. split; [exact H3|].
      split.
      { exists s. split; [exact Hr|]. intros x Hx. right. apply Hinc, Hx. }
      intros Hl h' [<-|Hin] Hne''.
      * rewrite Hne'' in Ec. simpl in Ec. apply negb_false_iff in Ec.
        apply existsb_exists in Ec as (x & Hx & Hxe). apply String.eqb_eq in Hxe. subst x.
        rewrite Hr, map_app. apply in_or_app. left. rewrite <- Hs. exact Hx.
      * exact (H5 Hl h' Hin Hne'').
Qed.

(** X4.  The "unique and truncate" loop of [check_compliance] keeps at most six
    hits, taken from the gathered hits, with distinct non-empty [ref_id]s;
    when it keeps fewer than six, every non-empty [ref_id] of the gathered
    hits is among the kept ones. *)
Theorem ctx_hits_spec (hits : list Hit) :
  let r := ctx_hits hits in
  List.length r <= 6 /\ NoDup (map hit_ref_id r)
  /\ Forall (fun h => nonempty (hit_ref_id h) = true) r /\ incl r hits
  /\ (List.length r < 6 -> forall h, In h hits -> nonempty (hit_ref_id h) = true ->
        In (hit_ref_id h) (map hit_ref_id r)).
Proof.
  destruct (dedup_hits_inv hits [] [] eq_refl (NoDup_nil _) (Forall_nil _) ltac:(simpl; lia))
    as (H1 & H2 & H3 & (s & Hr & Hinc) & H5).
  unfold ctx_hits. cbv zeta in *. simpl in Hr. rewrite Hr in *.
  repeat split; assumption.
Qed.

Lemma all_some_none {A B} (f : A -> option B) (l : list A) :
  all_some f l = None <-> exists x, In x l /\ f x = None.
Proof.
  induction l as [|x l IH]; simpl.
  - split; [discriminate | intros (y & [] & _)].
  - destruct (f x) as [y|] eqn:Ef.
    + destruct (all_some f l) as [ys|] eqn:Er.
      * split; [discriminate|]. intros (z & [<-|Hz] & Hfz); [congruence|].
        assert (Hn : exists x, In x l /\ f x = None) by eauto. apply IH in Hn. discriminate.
      * split; [intros _|reflexivity]. destruct (proj1 IH eq_refl) as (z & Hz & Hfz). eauto.
    + split; [intros _; eauto | reflexivity].
Qed.

Lemma all_some_map {A B} (f : A -> option B) (g : A -> B) (l : list A) :
  (forall x, In x l -> f x = Some (g x)) -> all_some f l = Some (map g l).
Proof.
  induction l as [|x l IH]; simpl; intros H; [reflexivity|].
  rewrite H by (left; reflexivity). rewrite IH by (intros y Hy; apply H; right; exact Hy).
  reflexivity.
Qed.

Lemma segments_of_facts (text : string) (clauses : list Json) :
  (segments_of text clauses = None
     <-> exists c, In c clauses /\ forall kvs, c <> JObj kvs)
  /\ segments_of text [] = Some [JStr text]
  /\ forall kvss, kvss <> [] ->
       segments_of text (map JObj kvss)
       = Some (map (fun kvs => json_get "text" kvs (JStr "")) kvss).
Proof.
  split; [|split; [reflexivity|]].
  - unfold segments_of. split.
    + intros H. destruct (all_some _ clauses) as [segs|] eqn:E.
      * destruct segs; discriminate.
      * apply all_some_none in E as (c & Hc & Hn). exists c. split; [exact Hc|].
        intros kvs ->. discriminate.
    + intros (c & Hc & Hn).
      replace (all_some _ clauses) with (@None (list Json)); [reflexivity|].
      symmetry. apply all_some_none. exists c. split; [exact Hc|].
      destruct c; try reflexivity. exfalso. eapply Hn. reflexivity.
  - intros kvss Hne. unfold segments_of.
    rewrite (all_some_map _ (fun c => match c with JObj kvs => json_get "text" kvs (JStr "")
                                                  | _ => JNull end))
      by (intros x Hx; apply in_map_iff in Hx as (kvs & <- & _); reflexivity).
    rewrite map_map. destruct kvss as [|k kvss]; [congruence | reflexivity].
Qed.

Lemma llm_issue_some (puf : Json -> option (option Q)) (f d : string) (item : Json)
    (i : IssueItem) :
  llm_issue puf f d item = Some i ->
  exists kvs, item = JObj kvs /\ source_filename i = Some f
  /\ document i = match obj_lookup "document" kvs with
                  | Some (JStr s) => if nonempty s then s else d
                  | _ => d
                  end
  /\ (obj_lookup "severity" kvs = None -> severity i = "Medium")
  /\ llm_evidence (json_get "evidence" kvs (JList [])) = Some (evidence i).
Proof.
  unfold llm_issue. destruct item as [| | | | |kvs]; try discriminate.
  destruct (llm_evidence _) as [ev|] eqn:Eev; [|discriminate].
  intros H. exists kvs.
  repeat match type of H with
         | context[match ?x with Some _ => _ | None => _ end] =>
             let E := fresh "E" in destruct x eqn:E; [|discriminate]
         end.
  injection H as <-. simpl. split; [reflexivity|]. split; [reflexivity|]. split; [|split].
  - unfold json_get in *. destruct (obj_lookup "document" kvs) as [v|].
    + destruct v as [|b|q|sv|lv|kv]; simpl in *;
        repeat match goal with
               | H : context[if ?c then _ else _] |- _ => destruct c
               | H : context[match ?c with [] => _ | _ :: _ => _ end] |- _ => destruct c
               | |- context[if ?c then _ else _] => destruct c
               end; simpl in *; try discriminate; congruence.
    + destruct d; simpl in *; congruence.
  - intros Hs. unfold json_get in *. rewrite Hs in *. simpl in *. congruence.
  - exact Eev.
Qed.

Lemma append_until_fail_source (puf : Json -> option (option Q)) (f d : string)
    (data : list Json) :
  Forall (fun i => source_filename i = Some f) (append_until_fail puf f d data).
Proof.
  induction data as [|item data IH]; simpl; [constructor|].
  destruct (llm_issue puf f d item) as [i|] eqn:E; [|constructor].
  constructor; [|exact IH]. apply llm_issue_some in E as (kvs & _ & Hs & _). exact Hs.
Qed.

Lemma segment_issues_none retr expand gen puf (f d : string) (seg : Json) :
  segment_issues retr expand gen puf f d seg = None <-> json_slice 300 seg = None.
Proof.
  unfold segment_issues. destruct seg; simpl; split; intros H; try reflexivity; try discriminate;
    destruct (gen _ _); discriminate.
Qed.

Lemma segment_issues_source retr expand gen puf (f d : string) (seg : Json) l :
  segment_issues retr expand gen puf f d seg = Some l ->
  Forall (fun i => source_filename i = Some f) l.
Proof.
  unfold segment_issues. destruct (json_slice 300 seg), (json_slice 4000 seg); try discriminate.
  destruct (gen _ _); intros H; injection H as <-; [apply append_until_fail_source | constructor].
Qed.

Lemma llm_pass_source retr expand gen puf (f d : string) (segs : list Json) l :
  llm_pass retr expand gen puf f d segs = Some l ->
  Forall (fun i => source_filename i = Some f) l.
Proof.
  revert l. induction segs as [|seg segs IH]; simpl; intros l H.
  - injection H as <-. constructor.
  - destruct (segment_issues _ _ _ _ _ _ seg) as [l1|] eqn:E1; [|discriminate].
    destruct (llm_pass _ _ _ _ _ _ segs) as [l2|] eqn:E2; [|discriminate].
    injection H as <-. apply Forall_app. split; [eapply segment_issues_source; eauto | auto].
Qed.

Lemma gather_hits_swallow retr (qs : list Json) :
  gather_hits retr qs = gather_hits (swallow_errors retr) qs.
Proof.
  induction qs as [|q qs IH]; simpl; [reflexivity|].
  unfold swallow_errors at 1. destruct (retr q); rewrite IH; reflexivity.
Qed.

Lemma segment_issues_swallow retr expand gen puf (f d : string) (seg : Json) :
  segment_issues retr expand gen puf f d seg
  = segment_issues (swallow_errors retr) expand gen puf f d seg.
Proof.
  unfold segment_issues. destruct (json_slice 300 seg), (json_slice 4000 seg); try reflexivity.
  rewrite gather_hits_swallow. reflexivity.
Qed.

Lemma llm_pass_facts retr expand gen puf (f d : string) (segs : list Json) :
  (llm_pass retr expand gen puf f d segs = None
     <-> exists seg, In seg segs /\ json_slice 300 seg = None)
  /\ llm_pass retr expand gen puf f d segs
     = llm_pass (swallow_errors retr) expand gen puf f d segs.
Proof.
  split.
  - induction segs as [|seg segs IH]; simpl.
    + split; [discriminate | intros (s & [] & _)].
    + destruct (segment_issues _ _ _ _ _ _ seg) as [l1|] eqn:E1.
      * assert (Hs : json_slice 300 seg <> None)
          by (intros Hn; apply (segment_issues_none retr expand gen puf f d) in Hn; congruence).
        destruct (llm_pass _ _ _ _ _ _ segs) as [l2|] eqn:E2.
        -- split; [discriminate|]. intros (s & [<-|Hin] & Hn); [contradiction|].
           assert (Hx : exists s, In s segs /\ json_slice 300 s = None) by eauto.
           apply IH in Hx. discriminate.
        -- split; [intros _|reflexivity]. destruct (proj1 IH eq_refl) as (s & Hin & Hn). eauto.
      * split; [intros _|reflexivity]. exists seg. split; [left; reflexivity|].
        apply (segment_issues_none retr expand gen puf f d). exact E1.
  - induction segs as [|seg segs IH]; cbn [llm_pass]; [reflexivity|].
    rewrite IH, segment_issues_swallow. reflexivity.
Qed.

Lemma heuristic_r_source (retr_q : string -> Result (list Hit)) (f d t : string) l :
  _heuristic_issues_r retr_q f d t = inr l -> Forall (fun i => source_filename i = Some f) l.
Proof.
  intros H. apply heuristic_r_ok in H. subst l.
  destruct (heuristic_issues_bounds
              (fun q => match retr_q q with inr h => h | inl _ => [] end) f d t)
    as (_ & _ & Hf).
  eapply Forall_impl; [|exact Hf]. intros i (_ & _ & Hs & _). exact Hs.
Qed.

Lemma check_compliance_full_source retr expand gen puf seg_llm (fs : CorpusFiles)
    (llm_on : bool) (f d t : string) (l : list IssueItem) :
  check_compliance_full retr expand gen puf seg_llm fs llm_on f d t = inr l ->
  Forall (fun i => source_filename i = Some f) l.
Proof.
  unfold check_compliance_full. destruct (FaissRetriever_init fs 4); [discriminate|].
  assert (Hh : match _heuristic_issues_r (fun q => retr (JStr q)) f d t with
               | inl e => inl (CErr e) | inr l => inr l end = inr l ->
               Forall (fun i => source_filename i = Some f) l).
  { destruct (_heuristic_issues_r _ f d t) eqn:E; [discriminate|].
    intros H. injection H as <-. eapply heuristic_r_source. exact E. }
  destruct llm_on; simpl; [|exact Hh].
  destruct (segments_of t (seg_llm t)) as [segs|]; [|discriminate].
  destruct (llm_pass retr expand gen puf f d segs) as [[|i is]|] eqn:E; try discriminate.
  - exact Hh.
  - intros H. injection H as <-. eapply llm_pass_source. exact E.
Qed.

(** X9.  [check_compliance] returns an empty list only when the heuristic rules
    all pass on the text: the model path never returns [] itself, it falls
    back to [_heuristic_issues]. *)
Theorem check_compliance_empty retr expand gen puf seg_llm (fs : CorpusFiles)
    (llm_on : bool) (f d t : string) :
  check_compliance_full retr expand gen puf seg_llm fs llm_on f d t = inr [] ->
  (contains "jurisdiction" (lower t) || contains "federal" (lower t)
   || contains "uae courts" (lower t) || contains "abu dhabi courts" (lower t)) = false
  /\ (contains "signature" (lower t) || contains "signed" (lower t)) = true
  /\ contains "adgm" (lower t) = true.
Proof.
  unfold check_compliance_full. destruct (FaissRetriever_init fs 4); [discriminate|].
  match goal with |- _ -> ?G =>
    assert (Hh : match _heuristic_issues_r (fun q => retr (JStr q)) f d t with
                 | inl e => inl (CErr e) | inr l => inr l end = inr [] -> G) end.
  { destruct (_heuristic_issues_r _ f d t) eqn:E; [discriminate|].
    intros H. injection H as ->. apply heuristic_r_ok in E.
    apply (heuristic_empty_conditions
             (fun q => match retr (JStr q) with inr h => h | inl _ => [] end) f d t).
    symmetry. exact E. }
  destruct llm_on; simpl; [|exact Hh].
  destruct (segments_of t (seg_llm t)) as [segs|]; [|discriminate].
  destruct (llm_pass retr expand gen puf f d segs) as [[|i is]|]; try discriminate.
  exact Hh.
Qed.

Lemma llm_pass_no_answers retr expand gen puf (f d : string) (segs : list Json) :
  (forall c h, gen c h = None \/ gen c h = Some []) ->
  Forall (fun s => json_slice 300 s <> None) segs ->
  llm_pass retr expand gen puf f d segs = Some [].
Proof.
  intros Hg Hs. induction Hs as [|seg segs Hseg Hs IH]; simpl; [reflexivity|].
  rewrite IH. unfold segment_issues.
  destruct seg; simpl in Hseg; try congruence; simpl;
    match goal with |- context[gen ?c ?h] => destruct (Hg c h) as [E|E]; rewrite E end;
    reflexivity.
Qed.

(** X10.  When the model answers no segment with an issue and every segment can
    be sliced, [check_compliance] with a model returns the same as without
    one: the heuristic issues. *)
Theorem check_compliance_llm_fallback retr expand gen puf seg_llm (fs : CorpusFiles)
    (f d t : string) (segs : list Json) :
  (forall c h, gen c h = None \/ gen c h = Some []) ->
  segments_of t (seg_llm t) = Some segs ->
  Forall (fun s => json_slice 300 s <> None) segs ->
  check_compliance_full retr expand gen puf seg_llm fs true f d t
  = check_compliance_full retr expand gen puf seg_llm fs false f d t.
Proof.
  intros Hg Hseg Hs. unfold check_compliance_full.
  destruct (FaissRetriever_init fs 4); [reflexivity|]. simpl.
  rewrite Hseg, (llm_pass_no_answers retr expand gen puf f d segs Hg Hs). reflexivity.
Qed.

(** X11.  With the retriever built and a model present, a clause that is not a
    dict makes [check_compliance] raise [AttributeError], and a segment that
    cannot be sliced makes it raise [TypeError]. *)
Theorem check_compliance_llm_errors retr expand gen puf seg_llm (fs : CorpusFiles)
    (f d t : string) (r : FaissRetriever) :
  FaissRetriever_init fs 4 = inr r ->
  ((exists c, In c (seg_llm t) /\ forall kvs, c <> JObj kvs) ->
   check_compliance_full retr expand gen puf seg_llm fs true f d t = inl CAttributeError)
  /\ (forall segs, segments_of t (seg_llm t) = Some segs ->
      (exists s, In s segs /\ json_slice 300 s = None) ->
      check_compliance_full retr expand gen puf seg_llm fs true f d t = inl CTypeError).
Proof.
  intros Hr. unfold check_compliance_full. rewrite Hr. simpl. split.
  - intros Hc. apply (proj1 (segments_of_facts t (seg_llm t))) in Hc. rewrite Hc. reflexivity.
  - intros segs Hseg Hs. rewrite Hseg.
    apply (proj1 (llm_pass_facts retr expand gen puf f d segs)) in Hs. rewrite Hs. reflexivity.
Qed.

Lemma py_index_lt (n : nat) (i : Z) (t : nat) : py_index n i = inr t -> t < n.
Proof.
  unfold py_index.
  destruct ((0 <=? i) && (i <? Z.of_nat n))%Z eqn:E1.
  - intros H. injection H as <-. apply andb_true_iff in E1 as [E1 E2].
    apply Z.leb_le in E1. apply Z.ltb_lt in E2. lia.
  - destruct ((- Z.of_nat n <=? i) && (i <? 0))%Z eqn:E2; [|discriminate].
    intros H. injection H as <-. apply andb_true_iff in E2 as [E2 E3].
    apply Z.leb_le in E2. apply Z.ltb_lt in E3. lia.
Qed.

Lemma para_sum_update (m : Paragraph -> nat) (f : Paragraph -> Paragraph) (k : nat)
    (i : nat) (ps : list Paragraph) :
  (forall p, m (f p) = m p + k) -> i < List.length ps ->
  para_sum m (update_nth f i ps) = para_sum m ps + k.
Proof.
  intros Hf. revert i. induction ps as [|p ps IH]; intros [|i] Hi; simpl in *; try lia.
  - rewrite Hf. lia.
  - rewrite IH by lia. lia.
Qed.

Lemma map_update_nth {A B} (g : A -> B) (f : A -> A) (i : nat) (l : list A) :
  (forall x, g (f x) = g x) -> map g (update_nth f i l) = map g l.
Proof.
  intros Hf. revert i. induction l as [|x l IH]; intros [|i]; simpl; rewrite ?Hf, ?IH; reflexivity.
Qed.

Lemma length_update_nth {A} (f : A -> A) (i : nat) (l : list A) :
  List.length (update_nth f i l) = List.length l.
Proof. revert i. induction l as [|x l IH]; intros [|i]; simpl; rewrite ?IH; reflexivity. Qed.

Lemma place_groups_counts (sc : IssueEvidence -> string) (issues : list IssueItem)
    (llm_map : list (Z * Z)) (gs : Groups) :
  forall d d1, place_groups sc issues llm_map gs d = inr d1 ->
  para_texts d1 = para_texts d
  /\ total_notes d1 = total_notes d + List.length gs
  /\ total_ranges d1 = total_ranges d
                       + match comments d with Some _ => List.length gs | None => 0 end
  /\ (comments d1 = None <-> comments d = None).
Proof.
  induction gs as [|[p_idx l] gs IH]; cbn [place_groups]; intros d d1 H.
  - injection H as <-. rewrite !Nat.add_0_r. destruct (comments d); repeat split; auto.
  - destruct l as [|first rest]; [discriminate|].
    destruct (list_index first issues) as [e|k]; [discriminate|].
    destruct (py_index _ _) as [e|t] eqn:Et; [discriminate|].
    apply py_index_lt in Et.
    apply IH in H as (H1 & H2 & H3 & H4). rewrite H1, H2, H3.
    unfold _add_inline_comment, _add_word_comment in *.
    destruct (comments d) as [existing|] eqn:Ec; cbn [fst paragraphs comments] in *.
    + unfold para_texts, total_notes, total_ranges in *. cbn [paragraphs] in *.
      change (fold_right (fun (p : Paragraph) (n : nat) => List.length (inline_notes p) + n) 0)
        with (para_sum (fun p => List.length (inline_notes p))).
      change (fold_right (fun (p : Paragraph) (n : nat) => List.length (range_ids p) + n) 0)
        with (para_sum (fun p => List.length (range_ids p))).
      rewrite !map_update_nth by reflexivity.
      rewrite (para_sum_update (fun p => List.length (inline_notes p)) _ 1)
        by (try (intros p; simpl; rewrite length_app; simpl; lia);
            rewrite length_update_nth; exact Et).
      rewrite (para_sum_update (fun p => List.length (inline_notes p)) _ 0)
        by (try (intros p; simpl; lia); exact Et).
      rewrite (para_sum_update (fun p => List.length (range_ids p)) _ 0)
        by (try (intros p; simpl; lia); rewrite length_update_nth; exact Et).
      rewrite (para_sum_update (fun p => List.length (range_ids p)) _ 1)
        by (try (intros p; simpl; rewrite length_app; simpl; lia); exact Et).
      split; [reflexivity|]. simpl. split; [lia|]. split; [lia|].
      split; intros Hx; [apply H4 in Hx; simpl in Hx|]; discriminate.
    + unfold para_texts, total_notes, total_ranges in *. cbn [paragraphs] in *.
      change (fold_right (fun (p : Paragraph) (n : nat) => List.length (inline_notes p) + n) 0)
        with (para_sum (fun p => List.length (inline_notes p))).
      change (fold_right (fun (p : Paragraph) (n : nat) => List.length (range_ids p) + n) 0)
        with (para_sum (fun p => List.length (range_ids p))).
      rewrite !map_update_nth by reflexivity.
      rewrite (para_sum_update (fun p => List.length (inline_notes p)) _ 1)
        by (try (intros p; simpl; rewrite length_app; simpl; lia); exact Et).
      rewrite (para_sum_update (fun p => List.length (range_ids p)) _ 0)
        by (try (intros p; simpl; lia); exact Et).
      simpl. rewrite Ec. split; [reflexivity|]. split; [lia|]. split; [lia|]. rewrite Ec in H4. exact H4.
Qed.

Lemma llm_digest_inv (ps : list string) : forall i acc,
  List.length acc < 60 ->
  let r := llm_digest i acc ps in
  List.length r <= 60
  /\ (exists s, r = (acc ++ s)%list
        /\ Forall (fun e => exists k p, nth_error ps k = Some p /\ fst e = i + k
                     /\ nonempty (strip p) = true /\ snd e = take 180 (strip p)) s
        /\ StronglySorted lt (map fst s))
  /\ (List.length r < 60 -> forall k p, nth_error ps k = Some p -> nonempty (strip p) = true ->
        In (i + k, take 180 (strip p)) r).
Proof.
  induction ps as [|p ps IH]; intros i acc Hlen; cbv zeta; cbn [llm_digest].
  - split; [lia|]. split.
    + exists []. rewrite app_nil_r. split; [reflexivity|]. split; constructor.
    + intros _ [|k] q Hq; discriminate.
  - destruct (nonempty (strip p)) eqn:Ep.
    + set (acc' := (acc ++ [(i, take 180 (strip p))])%list).
      assert (Hl' : List.length acc' = S (List.length acc))
        by (unfold acc'; rewrite length_app; simpl; lia).
      destruct (Nat.leb 60 (List.length acc')) eqn:El.
      * apply Nat.leb_le in El. split; [lia|]. split.
        -- exists [(i, take 180 (strip p))]. split; [reflexivity|]. split.
           ++ constructor; [|constructor]. exists 0, p. simpl. repeat split; auto; lia.
           ++ repeat constructor.
        -- lia.
      * apply Nat.leb_gt in El.
        destruct (IH (S i) acc' El) as (H1 & (s & Hr & Hf & Hs) & H3).
        split; [exact H1|]. split.
        -- exists ((i, take 180 (strip p)) :: s). split; [rewrite Hr; unfold acc'; rewrite <- app_assoc; reflexivity|].
           split.
           ++ constructor; [exists 0, p; simpl; repeat split; auto; lia|].
              eapply Forall_impl; [|exact Hf]. intros e (k & q & Hq & He & Hn & Ht).
              exists (S k), q. simpl. repeat split; auto; lia.
           ++ simpl. constructor; [exact Hs|].
              apply Forall_map. eapply Forall_impl; [|exact Hf].
              intros e (k & q & _ & He & _). lia.
        -- intros Hlt [|k] q Hq Hn.
           ++ simpl in Hq. injection Hq as <-. rewrite Hr. apply in_or_app. left.
              unfold acc'. apply in_or_app. right. left. f_equal. lia.
           ++ simpl in Hq. replace (i + S k) with (S i + k) by lia. exact (H3 Hlt k q Hq Hn).
    + destruct (Nat.leb 60 (List.length acc)) eqn:El; [apply Nat.leb_le in El; lia|].
      destruct (IH (S i) acc Hlen) as (H1 & (s & Hr & Hf & Hs) & H3).
      split; [exact H1|]. split.
      * exists s. split; [exact Hr|]. split; [|exact Hs].
        eapply Forall_impl; [|exact Hf]. intros e (k & q & Hq & He & Hn & Ht).
        exists (S k), q. simpl. repeat split; auto; lia.
      * intros Hlt [|k] q Hq Hn.
        -- simpl in Hq. injection Hq as <-. congruence.
        -- simpl in Hq. replace (i + S k) with (S i + k) by lia. exact (H3 Hlt k q Hq Hn).
Qed.

(** X12.  The paragraph digest of [_llm_anchor_map] has at most 60 entries with
    strictly increasing indices; each is the index of a non-blank paragraph
    with the first 180 characters of its stripped text; when it has fewer
    than 60 entries, every non-blank paragraph is in it. *)
Theorem llm_digest_spec (ps : list string) :
  let r := llm_digest 0 [] ps in
  List.length r <= 60
  /\ Forall (fun e => exists p, nth_error ps (fst e) = Some p
               /\ nonempty (strip p) = true /\ snd e = take 180 (strip p)) r
  /\ StronglySorted lt (map fst r)
  /\ (List.length r < 60 -> forall k p, nth_error ps k = Some p -> nonempty (strip p) = true ->
        In (k, take 180 (strip p)) r).
Proof.
  destruct (llm_digest_inv ps 0 [] ltac:(simpl; lia)) as (H1 & (s & Hr & Hf & Hs) & H3).
  cbv zeta in *. simpl in Hr. rewrite Hr in *.
  split; [exact H1|]. split.
  - eapply Forall_impl; [|exact Hf]. intros e (k & p & Hp & He & Hn & Ht).
    exists p. rewrite He. simpl. auto.
  - split; [exact Hs|]. exact H3.
Qed.

Lemma dict_get_set (ii k v dflt : Z) (m : list (Z * Z)) :
  dict_get ii (dict_set k v m) dflt = if Z.eqb ii k then v else dict_get ii m dflt.
Proof.
  induction m as [|[k' v'] m IH]; simpl.
  - reflexivity.
  - destruct (Z.eqb_spec k k') as [<-|Hne]; simpl.
    + destruct (Z.eqb ii k); reflexivity.
    + rewrite IH. destruct (Z.eqb_spec ii k'), (Z.eqb_spec ii k); subst; try congruence; reflexivity.
Qed.

Lemma parse_anchor_items_get (data : list LlmItem) : forall m m' ii dflt,
  parse_anchor_items m data = Some m' ->
  dict_get ii m' dflt = match last_proposal ii data with
                        | Some p => p
                        | None => dict_get ii m dflt
                        end.
Proof.
  induction data as [|it data IH]; simpl; intros m m' ii dflt H.
  - injection H as <-. reflexivity.
  - destruct it as [[i|] [p|]|]; try discriminate; try (apply IH; exact H).
    rewrite (IH _ _ ii dflt H), dict_get_set, Z.eqb_sym.
    destruct (last_proposal ii data); [reflexivity|]. destruct (Z.eqb i ii); reflexivity.
Qed.

Lemma parse_anchor_items_none (data : list LlmItem) : forall m,
  parse_anchor_items m data = None <-> In LOther data.
Proof.
  induction data as [|it data IH]; simpl; intros m.
  - split; [discriminate | intros []].
  - destruct it as [[i|] [p|]|]; rewrite ?IH;
      split; intros H; auto; try (destruct H as [H|H]; [discriminate|exact H]).
Qed.

(** X13.  A lookup in the map of [_llm_anchor_map] gives the default unless there
    is a model, issues, a non-blank paragraph and an answer whose items all
    have [.get]; then it gives the [paragraph_idx] of the last item
    proposing an [int] one for that issue, or the default. *)
Theorem llm_anchor_map_lookup (llm : LlmOracle) (paras : list string)
    (issues : list IssueItem) (ii dflt : Z) :
  dict_get ii (_llm_anchor_map llm paras issues) dflt
  = match llm with
    | Some (Some data) =>
        match issues, llm_digest 0 [] paras with
        | _ :: _, _ :: _ =>
            if existsb (fun it => match it with LOther => true | _ => false end) data
            then dflt
            else match last_proposal ii data with Some p => p | None => dflt end
        | _, _ => dflt
        end
    | _ => dflt
    end.
Proof.
  unfold _llm_anchor_map.
  destruct llm as [[data|]|]; try reflexivity; destruct issues as [|it issues]; try reflexivity;
    destruct (llm_digest 0 [] paras) as [|e es]; try reflexivity.
  destruct (existsb _ data) eqn:Eo.
  - apply existsb_exists in Eo as (x & Hx & Ho). destruct x as [a b|]; [discriminate|].
    apply (parse_anchor_items_none data []) in Hx. rewrite Hx. reflexivity.
  - destruct (parse_anchor_items [] data) as [m|] eqn:Ep.
    + rewrite (parse_anchor_items_get data [] m ii dflt Ep). reflexivity.
    + apply parse_anchor_items_none in Ep.
      assert (Ht : existsb (fun it => match it with LOther => true | _ => false end) data = true)
        by (apply existsb_exists; exists LOther; auto).
      congruence.
Qed.

Lemma sort_groups_length (gs : Groups) : List.length (sort_groups gs) = List.length gs.
Proof.
  unfold sort_groups. induction gs as [|g gs IH]; simpl; [reflexivity|].
  rewrite <- IH. generalize (fold_right insert_group [] gs) as l.
  induction l as [|g' l IHl]; simpl; [reflexivity|].
  destruct (Nat.leb (fst g) (fst g')); simpl; rewrite ?IHl; reflexivity.
Qed.

(** X14.  A completed annotation pass keeps the paragraphs and the text of their
    original runs, adds one inline note per anchored group and, when the
    comments part exists, one comment range per group (none otherwise), and
    only appends blocks, ending with the issues appendix. *)
Theorem annotate_document_effects (sc : IssueEvidence -> string) (env : Env)
    (issues : list IssueItem) (d d' : Document) :
  annotate_document sc env issues d = inr d' ->
  let groups := fst (group_issues (resolve_anchor (embed_scores env) (para_texts d)) issues) in
  para_texts d' = para_texts d
  /\ total_notes d' = total_notes d + List.length groups
  /\ total_ranges d' = total_ranges d
                       + match comments d with Some _ => List.length groups | None => 0 end
  /\ (comments d' = None <-> comments d = None)
  /\ exists un, appended d' = (appended d ++ unanchored_blocks sc un ++ issues_appendix issues)%list.
Proof.
  intros H groups. unfold annotate_document in H. cbv zeta in H.
  subst groups.
  destruct (group_issues _ issues) as [g un] eqn:Eg. simpl.
  destruct (place_groups sc issues _ (sort_groups g) d) as [e|d1] eqn:Hp; [discriminate|].
  injection H as <-.
  destruct (place_groups_counts sc issues _ _ d d1 Hp) as (H1 & H2 & H3 & H4).
  rewrite sort_groups_length in H2, H3.
  unfold para_texts, total_notes, total_ranges in *. simpl.
  split; [exact H1|]. split; [exact H2|]. split; [exact H3|]. split; [exact H4|].
  exists un. rewrite (place_groups_appended sc issues _ _ d d1 Hp). reflexivity.
Qed.

Lemma annotate_document_effects_witness :
  para_texts sample_annotated = para_texts sample_doc
  /\ total_notes sample_annotated = total_notes sample_doc + List.length sample_groups
  /\ total_ranges sample_annotated
     = total_ranges sample_doc
       + match comments sample_doc with Some _ => List.length sample_groups | None => 0 end
  /\ (comments sample_annotated = None <-> comments sample_doc = None)
  /\ exists un, appended sample_annotated
                = (appended sample_doc ++ unanchored_blocks ref_id un
                   ++ issues_appendix [sample_issue])%list.
Proof.
  apply (annotate_document_effects ref_id sample_env [sample_issue] sample_doc sample_annotated).
  vm_compute. reflexivity.
Defined.

(** X20.  Every comment a completed annotation pass adds has the id 0: the
    comment store grows by one [w:comment] with id 0 per anchored group, and
    each paragraph only gets range markers with id 0 added. *)
Theorem annotation_comment_ids_zero (sc : IssueEvidence -> string) (env : Env)
    (issues : list IssueItem) (d d' : Document) (existing : list CommentId) :
  comments d = Some existing ->
  annotate_document sc env issues d = inr d' ->
  comments d' = Some (existing ++ repeat (IdValue 0%Z)
                        (List.length (fst (group_issues (resolve_anchor (embed_scores env)
                                                           (para_texts d)) issues))))%list
  /\ Forall2 zero_ranges_added (paragraphs d) (paragraphs d').
Proof.
  intros Hc H. unfold annotate_document in H. cbv zeta in H.
  destruct (group_issues _ issues) as [g un] eqn:Eg. simpl.
  destruct (place_groups sc issues _ (sort_groups g) d) as [e|d1] eqn:Hp; [discriminate|].
  injection H as <-. simpl.
  destruct (place_groups_comment_ids_zero sc issues _ _ d d1 existing Hc Hp) as [H1 H2].
  rewrite sort_groups_length in H1. split; assumption.
Qed.

Lemma annotation_comment_ids_zero_witness :
  comments two_group_annotated
  = Some ([IdValue 3%Z] ++ repeat (IdValue 0%Z) (List.length two_groups))%list
  /\ Forall2 zero_ranges_added (paragraphs two_group_doc) (paragraphs two_group_annotated).
Proof.
  apply (annotation_comment_ids_zero ref_id sample_env [sample_issue; address_issue]
           two_group_doc two_group_annotated [IdValue 3%Z]).
  - reflexivity.
  - vm_compute. reflexivity.
Defined.

Lemma sdict_set_keys {V} (k : string) (v : V) (m : list (string * V)) (x : string) :
  In x (map fst (sdict_set k v m)) <-> x = k \/ In x (map fst m).
Proof.
  induction m as [|[k' v'] m IH]; simpl.
  - intuition congruence.
  - destruct (String.eqb_spec k k') as [<-|Hne]; simpl; [intuition congruence|].
    rewrite IH. intuition congruence.
Qed.

Lemma sdict_set_nodup {V} (k : string) (v : V) (m : list (string * V)) :
  NoDup (map fst m) -> NoDup (map fst (sdict_set k v m)).
Proof.
  induction m as [|[k' v'] m IH]; simpl; intros Hnd.
  - repeat constructor. intros [].
  - inversion Hnd as [|? ? Hn Hnd']; subst.
    destruct (String.eqb_spec k k') as [<-|Hne]; simpl; constructor; auto.
    rewrite sdict_set_keys. intros [->|Hin]; [congruence | contradiction].
Qed.

Lemma sdict_get_set {V} (x k : string) (v d : V) (m : list (string * V)) :
  sdict_get x (sdict_set k v m) d = if String.eqb x k then v else sdict_get x m d.
Proof.
  induction m as [|[k' v'] m IH]; simpl.
  - destruct (String.eqb x k); reflexivity.
  - destruct (String.eqb_spec k k') as [<-|Hne]; simpl.
    + destruct (String.eqb x k); reflexivity.
    + rewrite IH. destruct (String.eqb_spec x k'), (String.eqb_spec x k); subst;
        try congruence; reflexivity.
Qed.

Lemma run_doc_intake_facts (pe : string -> bool) (rd : string -> Result string)
    (cl : string -> string) (paths : list string) :
  (forall docs, run_doc_intake pe rd cl paths = inr docs ->
     Forall2 (fun p d => rd p = inr (text d) /\ filename d = basename p
                         /\ doc_type d = cl (text d))
             (filter (intake_accepts pe) paths) docs)
  /\ (forall e, run_doc_intake pe rd cl paths = inl e ->
        exists p, In p (filter (intake_accepts pe) paths) /\ rd p = inl e).
Proof.
  induction paths as [|p ps [IH1 IH2]]; simpl.
  - split; [intros docs H; injection H as <-; constructor | discriminate].
  - change (intake_accepts pe p)
      with (pe p && String.eqb (lower (snd (splitext (basename p)))) ".docx").
    destruct (pe p); simpl; [|split; assumption].
    destruct (String.eqb (lower (snd (splitext (basename p)))) ".docx"); simpl;
      [|split; assumption].
    destruct (rd p) as [e|t] eqn:Er.
    + split; [discriminate|]. intros e' H. injection H as <-. exists p. split; [left|]; auto.
    + destruct (run_doc_intake pe rd cl ps) as [e|docs] eqn:Ed.
      * split; [discriminate|]. intros e' H. injection H as <-.
        destruct (IH2 e eq_refl) as (q & Hq & Hr). exists q. split; [right|]; auto.
      * split; [|discriminate]. intros docs' H. injection H as <-.
        constructor; [simpl; auto | apply IH1; reflexivity].
Qed.

Lemma intake_cache_keys_gen (docs : list IntakeDoc) : forall m x,
  In x (map fst (fold_left (fun m d => sdict_set (filename d) (text d) m) docs m))
  <-> In x (map fst m) \/ In x (map filename docs).
Proof.
  induction docs as [|d docs IH]; simpl; intros m x.
  - tauto.
  - rewrite IH, sdict_set_keys. intuition congruence.
Qed.

Lemma Forall2_in_right {A B} (R : A -> B -> Prop) (l1 : list A) (l2 : list B) (y : B) :
  Forall2 R l1 l2 -> In y l2 -> exists x, In x l1 /\ R x y.
Proof.
  induction 1 as [|a b l1 l2 Hab H IH]; simpl; [intros []|].
  intros [<-|Hy]; [exists a; auto|]. destruct (IH Hy) as (x & Hx & Hr). exists x. auto.
Qed.

Lemma compliance_loop_source (check : string -> string -> string -> CExn + list IssueItem)
    (tm texts : list (string * string)) (l : list IssueItem) :
  (forall f d t l, check f d t = inr l -> Forall (fun i => source_filename i = Some f) l) ->
  compliance_loop check tm texts = inr l ->
  Forall (fun i => exists f, In f (map fst texts) /\ source_filename i = Some f) l.
Proof.
  intros Hc. revert l. induction texts as [|[f t] texts IH]; simpl; intros l H.
  - injection H as <-. constructor.
  - destruct (check f (sdict_get f tm f) t) as [e|l1] eqn:E1; [discriminate|].
    destruct (compliance_loop check tm texts) as [e|l2]; [discriminate|].
    injection H as <-. apply Forall_app. split.
    + eapply Forall_impl; [|exact (Hc _ _ _ _ E1)]. intros i Hi. exists f. auto.
    + eapply Forall_impl; [|exact (IH l2 eq_refl)]. intros i (g & Hg & Hi). exists g. auto.
Qed.

(** X16.  Every issue that [node_compliance] stores for the documents of
    [run_doc_intake] matches, by [source_filename], the base name of an
    accepted input path, so [node_annotate] passes it to the annotation of
    that file. *)
Theorem compliance_issues_routed retr expand gen puf seg_llm (fs : CorpusFiles)
    (llm_on : bool) (pe : string -> bool) (rd : string -> Result string)
    (cl : string -> string) (paths types : list string) (docs : list IntakeDoc)
    (l : list IssueItem) :
  run_doc_intake pe rd cl paths = inr docs ->
  node_compliance (check_compliance_full retr expand gen puf seg_llm fs llm_on)
                  paths types (intake_cache docs) = inr l ->
  Forall (fun i => exists p, In p paths /\ intake_accepts pe p = true
                             /\ issue_matches (basename p) i = true) l.
Proof.
  intros Hi Hn. apply compliance_loop_source in Hn;
    [| intros f d t l' H; eapply check_compliance_full_source; exact H].
  apply (proj1 (run_doc_intake_facts pe rd cl paths)) in Hi.
  eapply Forall_impl; [|exact Hn]. intros i (f & Hf & Hs).
  unfold intake_cache in Hf. apply intake_cache_keys_gen in Hf as [[]|Hf].
  apply in_map_iff in Hf as (d & <- & Hd).
  destruct (Forall2_in_right _ _ _ _ Hi Hd) as (p & Hp & _ & Hb & _).
  apply filter_In in Hp as [Hp Ha].
  exists p. split; [exact Hp|]. split; [exact Ha|].
  unfold issue_matches. rewrite Hs, Hb, String.eqb_refl. reflexivity.
Qed.

Lemma annotate_loop_keys (annotate : string -> list IssueItem -> M string)
    (issues : list IssueItem) (ps : list string) :
  forall annotated log log' res,
  annotate_loop annotate annotated ps issues log = (log', inr res) ->
  NoDup (map fst annotated) ->
  NoDup (map fst res)
  /\ (forall k, In k (map fst res) <-> In k (map fst annotated) \/ exists p, In p ps /\ basename p = k).
Proof.
  induction ps as [|p ps IH]; simpl; intros annotated log log' res H Hnd.
  - injection H as _ <-. split; [exact Hnd|]. intros k. split; [auto|]. intros [H|(q & [] & _)]. exact H.
  - unfold bind in H. destruct (annotate p _ log) as [log1 [e|outp]]; [discriminate|].
    destruct (IH _ _ _ _ H (sdict_set_nodup _ _ _ Hnd)) as [H1 H2].
    split; [exact H1|]. intros k. rewrite H2, sdict_set_keys. split.
    + intros [[->|Hk]|(q & Hq & Hb)]; eauto.
    + intros [Hk|(q & [<-|Hq] & Hb)]; eauto.
Qed.

(** X17.  The annotated paths stored by [node_annotate] have one key per
    distinct base name of the input paths, and no more entries than
    paths. *)
Theorem node_annotate_keys (annotate : string -> list IssueItem -> M string)
    (paths : list string) (issues : list IssueItem) (log log' : list string)
    (res : list (string * string)) :
  node_annotate annotate paths issues log = (log', inr res) ->
  NoDup (map fst res)
  /\ (forall k, In k (map fst res) <-> exists p, In p paths /\ basename p = k)
  /\ List.length res <= List.length paths.
Proof.
  intros H. unfold node_annotate in H.
  destruct (annotate_loop_keys annotate issues paths [] log log' res H (NoDup_nil _)) as [H1 H2].
  split; [exact H1|]. split.
  - intros k. rewrite H2. simpl. intuition.
  - rewrite <- (length_map fst res), <- (length_map basename paths).
    apply NoDup_incl_length; [exact H1|]. intros k Hk. apply H2 in Hk as [[]|(p & Hp & <-)].
    apply in_map. exact Hp.
Qed.

Section SdictFold.

Variables (A V : Type) (F : A -> string) (G : A -> V).

Let step (m : list (string * V)) (a : A) : list (string * V) := sdict_set (F a) (G a) m.

Lemma sdict_get_fold_notin (l : list A) : forall m k d,
  ~ In k (map F l) -> sdict_get k (fold_left step l m) d = sdict_get k m d.
Proof.
  induction l as [|a l IH]; simpl; intros m k d Hk; [reflexivity|].
  rewrite IH by tauto. unfold step. rewrite sdict_get_set.
  destruct (String.eqb_spec k (F a)); [exfalso; auto | reflexivity].
Qed.

Lemma sdict_get_fold_in (l : list A) : forall m a d,
  NoDup (map F l) -> In a l -> sdict_get (F a) (fold_left step l m) d = G a.
Proof.
  induction l as [|b l IH]; simpl; intros m a d Hnd Ha; [contradiction|].
  inversion Hnd as [|? ? Hn Hnd']; subst.
  destruct Ha as [<-|Ha].
  - rewrite sdict_get_fold_notin by exact Hn. unfold step.
    rewrite sdict_get_set, String.eqb_refl. reflexivity.
  - apply IH; assumption.
Qed.

End SdictFold.

Lemma map_fst_combine {A B} (l1 : list A) (l2 : list B) :
  map fst (combine l1 l2) = firstn (List.length l2) l1.
Proof.
  revert l2. induction l1 as [|x l1 IH]; intros [|y l2]; simpl; try reflexivity.
  f_equal. apply IH.
Qed.

Lemma nth_error_combine_some {A B} (l1 : list A) (l2 : list B) (k : nat) x y :
  nth_error l1 k = Some x -> nth_error l2 k = Some y -> nth_error (combine l1 l2) k = Some (x, y).
Proof.
  revert l2 k. induction l1 as [|a l1 IH]; intros [|b l2] [|k]; simpl; try discriminate.
  - intros H1 H2. injection H1 as ->. injection H2 as ->. reflexivity.
  - apply IH.
Qed.

Lemma NoDup_firstn_of {A} (n : nat) (l : list A) : NoDup l -> NoDup (firstn n l).
Proof.
  revert n. induction l as [|x l IH]; intros [|n] Hnd; simpl; try apply NoDup_nil.
  inversion Hnd as [|? ? Hn Hnd']; subst. constructor; [|apply IH; exact Hnd'].
  intros Hin. apply Hn. rewrite <- (firstn_skipn n l). apply in_or_app. left. exact Hin.
Qed.

Lemma type_map_nth (paths types : list string) (k : nat) (p : string) :
  NoDup (map basename paths) -> nth_error paths k = Some p ->
  sdict_get (basename p) (type_map paths types) (basename p)
  = match nth_error types k with Some t => t | None => basename p end.
Proof.
  intros Hnd Hp. unfold type_map.
  assert (Hkeys : map (fun pt => basename (fst pt)) (combine paths types)
                  = firstn (List.length types) (map basename paths)).
  { rewrite firstn_map, <- map_fst_combine, map_map. reflexivity. }
  destruct (nth_error types k) as [t|] eqn:Ht.
  - apply (sdict_get_fold_in (string * string) string (fun pt => basename (fst pt)) snd
             (combine paths types) [] (p, t)).
    + rewrite Hkeys. apply NoDup_firstn_of. exact Hnd.
    + apply nth_error_In with k. apply nth_error_combine_some; assumption.
  - rewrite (sdict_get_fold_notin (string * string) string (fun pt => basename (fst pt)) snd);
      [reflexivity|].
    rewrite Hkeys. intros Hin.
    apply In_nth_error in Hin as (j & Hj). rewrite nth_error_firstn in Hj.
    destruct (Nat.ltb_spec j (List.length types)) as [Hlt|]; [|discriminate].
    apply nth_error_None in Ht.
    assert (Hk : nth_error (map basename paths) k = Some (basename p))
      by (rewrite nth_error_map, Hp; reflexivity).
    assert (Hjk : j = k).
    { apply (proj1 (NoDup_nth_error _) Hnd j k); [apply nth_error_Some; congruence | congruence]. }
    lia.
Qed.

Lemma append_until_fail_prefix (puf : Json -> option (option Q)) (f d : string)
    (data : list Json) :
  let l := append_until_fail puf f d data in
  List.length l <= List.length data
  /\ Forall2 (fun item i => llm_issue puf f d item = Some i) (firstn (List.length l) data) l
  /\ (List.length l < List.length data ->
      exists item, nth_error data (List.length l) = Some item /\ llm_issue puf f d item = None).
Proof.
  induction data as [|item data IH]; cbv zeta in *; simpl.
  - split; [lia|]. split; [constructor|]. lia.
  - destruct (llm_issue puf f d item) as [i|] eqn:E; simpl.
    + destruct IH as (H1 & H2 & H3). split; [lia|]. split; [constructor; assumption|].
      intros Hlt. apply H3. lia.
    + split; [lia|]. split; [constructor|]. intros _. exists item. auto.
Qed.

(** X7.  The items of a model answer are converted in order up to the first one
    that fails, which is dropped with all later ones; every converted issue
    carries the file name as [source_filename], the display name as document
    unless the item gives a non-empty string, and severity "Medium" when the
    item has none. *)
Theorem llm_items_until_first_failure (puf : Json -> option (option Q)) (f d : string)
    (data : list Json) :
  (let l := append_until_fail puf f d data in
   List.length l <= List.length data
   /\ Forall2 (fun item i => llm_issue puf f d item = Some i) (firstn (List.length l) data) l
   /\ (List.length l < List.length data ->
       exists item, nth_error data (List.length l) = Some item
                    /\ llm_issue puf f d item = None))
  /\ (forall kvs i, llm_issue puf f d (JObj kvs) = Some i ->
        source_filename i = Some f
        /\ document i = match obj_lookup "document" kvs with
                        | Some (JStr s) => if nonempty s then s else d
                        | _ => d
                        end
        /\ (obj_lookup "severity" kvs = None -> severity i = "Medium")).
Proof.
  split; [apply append_until_fail_prefix|].
  intros kvs i H. apply llm_issue_some in H as (kvs' & Hk & H1 & H2 & H3 & _).
  injection Hk as <-. auto.
Qed.

(** X2.  [_heuristic_issues] returns no issue exactly when the lower-cased text
    mentions none of "jurisdiction", "federal", "uae courts" and "abu dhabi
    courts", mentions "signature" or "signed", and mentions "adgm". *)
Theorem heuristic_issues_empty_iff (sf : string -> list Hit) (f d t : string) :
  fst (_heuristic_issues sf f d t) = []
  <-> (contains "jurisdiction" (lower t) || contains "federal" (lower t)
       || contains "uae courts" (lower t) || contains "abu dhabi courts" (lower t)) = false
      /\ (contains "signature" (lower t) || contains "signed" (lower t)) = true
      /\ contains "adgm" (lower t) = true.
Proof. exact (heuristic_empty_conditions sf f d t). Qed.

(** X3.  [_heuristic_issues] returns at most three issues with distinct issue
    texts; each carries the display name as document, an empty section, the
    file name as [source_filename], no groundedness, at most one citation
    whose snippet has at most 400 characters, and one of the three fixed
    issue/severity pairs. *)
Theorem heuristic_issues_bounded (sf : string -> list Hit) (f d t : string) :
  let l := fst (_heuristic_issues sf f d t) in
  List.length l <= 3 /\ NoDup (map issue l) /\ Forall (heuristic_issue_ok f d) l.
Proof. exact (heuristic_issues_bounds sf f d t). Qed.

(** X5.  The segments of [check_compliance] fail ([AttributeError]) exactly when
    some clause is not a dict; no clause gives the whole text as the only
    segment; clauses that are all dicts give their ["text"] values. *)
Theorem segments_of_spec (text : string) (clauses : list Json) :
  (segments_of text clauses = None
     <-> exists c, In c clauses /\ forall kvs, c <> JObj kvs)
  /\ segments_of text [] = Some [JStr text]
  /\ forall kvss, kvss <> [] ->
       segments_of text (map JObj kvss)
       = Some (map (fun kvs => json_get "text" kvs (JStr "")) kvss).
Proof. exact (segments_of_facts text clauses). Qed.

(** X6.  The loop over the segments raises [TypeError] exactly when some segment
    cannot be sliced; errors of [retriever.search] inside it are swallowed,
    so the loop behaves as with a retriever returning no hit instead. *)
Theorem llm_pass_errors retr expand gen puf (f d : string) (segs : list Json) :
  (llm_pass retr expand gen puf f d segs = None
     <-> exists seg, In seg segs /\ json_slice 300 seg = None)
  /\ llm_pass retr expand gen puf f d segs
     = llm_pass (swallow_errors retr) expand gen puf f d segs.
Proof. exact (llm_pass_facts retr expand gen puf f d segs). Qed.

(** X8.  Every issue returned by [check_compliance] carries the file name it
    was called with as [source_filename], on the heuristic and the model
    path alike. *)
Theorem check_compliance_source_filename retr expand gen puf seg_llm (fs : CorpusFiles)
    (llm_on : bool) (f d t : string) (l : list IssueItem) :
  check_compliance_full retr expand gen puf seg_llm fs llm_on f d t = inr l ->
  Forall (fun i => source_filename i = Some f) l.
Proof. exact (check_compliance_full_source retr expand gen puf seg_llm fs llm_on f d t l). Qed.

Lemma check_compliance_source_filename_witness :
  Forall (fun i => source_filename i = Some "contract.docx")
    (match check_compliance_full no_hits no_expansion no_answer any_unit_float no_clauses
             sample_corpus false "contract.docx" "Employment Contract" federal_text with
     | inr l => l | inl _ => [] end).
Proof.
  apply (check_compliance_source_filename no_hits no_expansion no_answer any_unit_float
           no_clauses sample_corpus false "contract.docx" "Employment Contract" federal_text).
  vm_compute. reflexivity.
Defined.

Lemma check_compliance_empty_witness :
  (contains "jurisdiction" (lower "Signed in ADGM.") || contains "federal" (lower "Signed in ADGM.")
   || contains "uae courts" (lower "Signed in ADGM.")
   || contains "abu dhabi courts" (lower "Signed in ADGM.")) = false
  /\ (contains "signature" (lower "Signed in ADGM.") || contains "signed" (lower "Signed in ADGM."))
     = true
  /\ contains "adgm" (lower "Signed in ADGM.") = true.
Proof.
  apply (check_compliance_empty no_hits no_expansion no_answer any_unit_float no_clauses
           sample_corpus false "contract.docx" "Employment Contract").
  vm_compute. reflexivity.
Defined.

Lemma check_compliance_llm_fallback_witness :
  check_compliance_full no_hits no_expansion no_answer any_unit_float no_clauses
    sample_corpus true "contract.docx" "Employment Contract" federal_text
  = check_compliance_full no_hits no_expansion no_answer any_unit_float no_clauses
    sample_corpus false "contract.docx" "Employment Contract" federal_text.
Proof.
  apply (check_compliance_llm_fallback no_hits no_expansion no_answer any_unit_float no_clauses
           sample_corpus "contract.docx" "Employment Contract" federal_text [JStr federal_text]).
  - intros c h. left. reflexivity.
  - vm_compute. reflexivity.
  - constructor; [discriminate | constructor].
Defined.

Lemma check_compliance_llm_errors_witness :
  ((exists c, In c (no_clauses federal_text) /\ forall kvs, c <> JObj kvs) ->
   check_compliance_full no_hits no_expansion no_answer any_unit_float no_clauses
     sample_corpus true "contract.docx" "Employment Contract" federal_text = inl CAttributeError)
  /\ (forall segs, segments_of federal_text (no_clauses federal_text) = Some segs ->
      (exists s, In s segs /\ json_slice 300 s = None) ->
      check_compliance_full no_hits no_expansion no_answer any_unit_float no_clauses
        sample_corpus true "contract.docx" "Employment Contract" federal_text = inl CTypeError).
Proof.
  apply (check_compliance_llm_errors no_hits no_expansion no_answer any_unit_float no_clauses
           sample_corpus "contract.docx" "Employment Contract" federal_text
           (mkRetriever sample_index [] [] 4)).
  vm_compute. reflexivity.
Defined.

Lemma compliance_issues_routed_witness :
  Forall (fun i => exists p, In p sample_paths /\ intake_accepts (fun _ => true) p = true
                             /\ issue_matches (basename p) i = true)
    (match node_compliance (check_compliance_full no_hits no_expansion no_answer any_unit_float
                              no_clauses sample_corpus false)
             sample_paths [] (intake_cache sample_docs) with
     | inr l => l | inl _ => [] end).
Proof.
  apply (compliance_issues_routed no_hits no_expansion no_answer any_unit_float no_clauses
           sample_corpus false (fun _ => true) sample_read sample_classify sample_paths []
           sample_docs).
  - vm_compute. reflexivity.
  - vm_compute. reflexivity.
Defined.

Lemma node_annotate_keys_witness :
  NoDup (map fst dup_annotated)
  /\ (forall k, In k (map fst dup_annotated) <-> exists p, In p dup_paths /\ basename p = k)
  /\ List.length dup_annotated <= List.length dup_paths.
Proof.
  apply (node_annotate_keys echo_annotate dup_paths [] [] (fst dup_run) dup_annotated).
  vm_compute. reflexivity.
Defined.

(** X18.  In [node_compliance], the display name looked up for the base name of
    the k-th path is the k-th document type, or the base name itself when
    there are fewer types, provided the base names are distinct. *)
Theorem type_map_lookup (paths types : list string) (k : nat) (p : string) :
  NoDup (map basename paths) -> nth_error paths k = Some p ->
  sdict_get (basename p) (type_map paths types) (basename p)
  = match nth_error types k with Some t => t | None => basename p end.
Proof. exact (type_map_nth paths types k p). Qed.

Lemma type_map_lookup_witness :
  sdict_get (basename "in/b.docx") (type_map ["in/a.docx"; "in/b.docx"] ["Articles of Association"])
    (basename "in/b.docx")
  = match nth_error ["Articles of Association"] 1 with Some t => t | None => basename "in/b.docx" end.
Proof.
  apply (type_map_lookup ["in/a.docx"; "in/b.docx"] ["Articles of Association"] 1 "in/b.docx").
  - vm_compute. repeat constructor; simpl; intuition discriminate.
  - reflexivity.
Defined.

Lemma Forall2_nth_right {A B} (R : A -> B -> Prop) (l1 : list A) (l2 : list B) :
  Forall2 R l1 l2 -> forall k y, nth_error l2 k = Some y ->
  exists x, nth_error l1 k = Some x /\ R x y.
Proof.
  induction 1 as [|a b l1 l2 Hab H IH]; intros [|k] y Hy; simpl in *; try discriminate.
  - injection Hy as <-. eauto.
  - apply IH. exact Hy.
Qed.

Lemma filter_all {A} (f : A -> bool) (l : list A) : forallb f l = true -> filter f l = l.
Proof.
  induction l as [|x l IH]; simpl; [reflexivity|].
  intros H. apply andb_true_iff in H as [H1 H2]. rewrite H1, IH by exact H2. reflexivity.
Qed.

(** X19.  When every input path is accepted by the intake and the base names are
    distinct, [node_compliance] uses each document's own type as its display
    name. *)
Theorem intake_display_types (pe : string -> bool) (rd : string -> Result string)
    (cl : string -> string) (paths : list string) (docs : list IntakeDoc) :
  run_doc_intake pe rd cl paths = inr docs ->
  forallb (intake_accepts pe) paths = true ->
  NoDup (map basename paths) ->
  Forall (fun d => sdict_get (filename d) (type_map paths (map doc_type docs)) (filename d)
                   = doc_type d) docs.
Proof.
  intros Hr Hall Hnd.
  apply (proj1 (run_doc_intake_facts pe rd cl paths)) in Hr.
  rewrite filter_all in Hr by exact Hall.
  apply Forall_forall. intros d Hd.
  apply In_nth_error in Hd as (k & Hk).
  destruct (Forall2_nth_right _ _ _ Hr k d Hk) as (p & Hp & _ & Hb & _).
  rewrite Hb, (type_map_nth paths (map doc_type docs) k p Hnd Hp), nth_error_map, Hk.
  reflexivity.
Qed.

Lemma intake_display_types_witness :
  Forall (fun d => sdict_get (filename d)
                     (type_map accepted_paths (map doc_type accepted_docs)) (filename d)
                   = doc_type d) accepted_docs.
Proof.
  apply (intake_display_types (fun _ => true) sample_read sample_classify accepted_paths
           accepted_docs).
  - vm_compute. reflexivity.
  - vm_compute. reflexivity.
  - vm_compute. repeat constructor; simpl; intuition discriminate.
Defined.

(** X15.  [run_doc_intake] reads exactly the existing paths with a [.docx]
    extension (any case), in order, one document each named by its base
    name and classified from its text; a reader error of one of them is the
    error of the call. *)
Theorem run_doc_intake_spec (pe : string -> bool) (rd : string -> Result string)
    (cl : string -> string) (paths : list string) :
  (forall docs, run_doc_intake pe rd cl paths = inr docs ->
     Forall2 (fun p d => rd p = inr (text d) /\ filename d = basename p
                         /\ doc_type d = cl (text d))
             (filter (intake_accepts pe) paths) docs)
  /\ (forall e, run_doc_intake pe rd cl paths = inl e ->
        exists p, In p (filter (intake_accepts pe) paths) /\ rd p = inl e).
Proof. exact (run_doc_intake_facts pe rd cl paths). Qed.
